(** * sbsearch: SQL assembly, database schema and spherical geometry

    A shallow embedding of [sbsearch/util.py], [sbsearch/schema.py] and the
    progress triangle of [sbsearch/logging.py].
    Part I holds the programs, Part II what is proved of them.

    - [Sql]: [assemble_sql], with the caller's parameter list kept in a store
      of Python list objects, because the function extends it in place;
      [date_constraints]; [iterate_over] on a cursor of pending rows.
    - [Schema]: the script run by [schema.create], as a list of
      [CREATE ... IF NOT EXISTS] statements, over a small model of the
      database (tables with rows, [BEFORE DELETE] triggers that fire one
      another).
    - [Geometry]: [sc2xyz], [rd2xyz], [vector_rotate],
      [spherical_interpolation], [eph_to_limits] and [interior_test], with
      astropy's [separation], [position_angle], [wrap_at] and
      [cartesian_to_spherical] written out from their formulas.  numpy's
      float64 arithmetic is idealised to the real numbers; a division by
      zero (a NaN in numpy) is an undefined result, [None].
    - [Progress]: [ProgressTriangle] without [base], in integer arithmetic.
    - [SqlFacts], [SchemaFacts], [GeometryFacts], [ProgressFacts]: the
      statements. *)

From Stdlib Require Import List String Ascii ZArith Bool Lia.
From Stdlib Require Import Reals Lra Psatz RNsatz Permutation.
Import ListNotations.

(* ================================================================== *)
(** * Part I: the programs *)
(* ================================================================== *)

(** ** assemble_sql *)

Module Sql.

Local Open Scope string_scope.

Section AssembleSql.

(** The type of the values substituted for the [?] of a statement. *)
Variable value : Type.

(** A Python list object is named by its address; the store maps each
    address to the list's current contents. *)
Definition loc := nat.
Definition store := loc -> list value.

(** [lst.extend(more)]: the object at [l] grows in place. *)
Definition extend (h : store) (l : loc) (more : list value) : store :=
  fun l' => if Nat.eqb l' l then (h l ++ more)%list else h l'.

(** A constraint: the SQL expression and its optional parameter. *)
Definition constraint := (string * option value)%type.

(** [[p for p in params if p is not None]] *)
Fixpoint not_none (params : list (option value)) : list value :=
  match params with
  | [] => []
  | Some p :: rest => p :: not_none rest
  | None :: rest => not_none rest
  end.

(** [sep.join(parts)] *)
Definition join (sep : string) (parts : list string) : string :=
  String.concat sep parts.

(** [assemble_sql(cmd, parameters, constraints)]: the returned pair and the
    store after the call.  [list(zip( *constraints))] is [List.split]. *)
Definition assemble_sql (h : store) (cmd : string) (parameters : loc)
    (constraints : list constraint) : (string * loc) * store :=
  if Nat.ltb 0 (List.length constraints) then
    let (expr, params) := List.split constraints in
    let cmd' := cmd ++ " WHERE " ++ join " AND " expr in
    let h' := extend h parameters (not_none params) in
    ((cmd', parameters), h')
  else ((cmd, parameters), h).

(** What the statement's right-hand side should read, constraint by
    constraint. *)
Fixpoint where_clause (cs : list constraint) : string :=
  match cs with
  | [] => ""
  | [(e, _)] => e
  | (e, _) :: rest => e ++ " AND " ++ where_clause rest
  end.

(** The parameters the constraints carry, in constraint order. *)
Fixpoint bound_parameters (cs : list constraint) : list value :=
  match cs with
  | [] => []
  | (_, Some p) :: rest => p :: bound_parameters rest
  | (_, None) :: rest => bound_parameters rest
  end.

End AssembleSql.

Arguments extend {value} h l more.
Arguments not_none {value} params.
Arguments assemble_sql {value} h cmd parameters constraints.
Arguments where_clause {value} cs.
Arguments bound_parameters {value} cs.

(** The call of [test_assemble_sql]: the list object at address 0 starts
    empty. *)
Definition test_store : store Z := fun _ => [].
Definition test_constraints : list (constraint Z) :=
  [("v > ?", Some 1%Z); ("v < 2", None)].

(** [date_constraints(jd_start, jd_stop)]; [None] is an absent bound. *)
Definition date_constraints {value : Type} (jd_start jd_stop : option value)
  : list (constraint value) :=
  let constraints := [] in
  let constraints :=
    match jd_start with
    | Some a => (constraints ++ [("jd>=?", Some a)])%list
    | None => constraints
    end in
  let constraints :=
    match jd_stop with
    | Some b => (constraints ++ [("jd<=?", Some b)])%list
    | None => constraints
    end in
  constraints.

(** How many [?] a statement holds. *)
Fixpoint placeholders (cmd : string) : nat :=
  match cmd with
  | EmptyString => 0
  | String c rest =>
      (if Ascii.eqb c "?"%char then 1 else 0) + placeholders rest
  end.

(** ** iterate_over *)

Section Cursor.

Variable row : Type.

(** An SQLite cursor: the rows of the result not fetched yet, and how many
    [fetchmany] takes at a time. *)
Record cursor : Type := mkCursor {
  pending : list row;
  arraysize : nat
}.

(** [cursor.fetchmany()]: the next [arraysize] rows, fewer at the end, the
    empty list when none is left. *)
Definition fetchmany (c : cursor) : list row * cursor :=
  (firstn (arraysize c) (pending c),
   mkCursor (skipn (arraysize c) (pending c)) (arraysize c)).

(** [iterate_over(cursor)], run to its end: the rows it yields, in order,
    and the cursor it leaves.  [fuel] bounds the turns of [while True];
    [None] when the loop has not returned within them. *)
Fixpoint iterate_over (fuel : nat) (c : cursor)
  : option (list row * cursor) :=
  match fuel with
  | O => None
  | S fuel' =>
      let (rows, c') := fetchmany c in
      match rows with
      | [] => Some ([], c')
      | _ :: _ =>
          match iterate_over fuel' c' with
          | None => None
          | Some (rest, c'') => Some ((rows ++ rest)%list, c'')
          end
      end
  end.

End Cursor.

Arguments pending {row} c.
Arguments arraysize {row} c.
Arguments mkCursor {row} pending arraysize.
Arguments fetchmany {row} c.
Arguments iterate_over {row} fuel c.

End Sql.

(** ** schema.create *)

Module Schema.

Local Open Scope string_scope.

(** ** The database *)

(** A stored value.  Keys are integers; [VNull] is SQL's NULL, which is
    equal to nothing. *)
Inductive value : Type :=
| VNull
| VInt (z : Z)
| VText (s : string).

Definition val_eqb (a b : value) : bool :=
  match a, b with
  | VInt x, VInt y => Z.eqb x y
  | VText x, VText y => String.eqb x y
  | _, _ => false
  end.

(** A row gives a value to some columns; any other column reads NULL. *)
Definition row := list (string * value).

Fixpoint col_of (r : row) (c : string) : value :=
  match r with
  | [] => VNull
  | (c', v) :: r' => if String.eqb c' c then v else col_of r' c
  end.

(** [WHERE c = v] *)
Definition matches (c : string) (v : value) (r : row) : bool :=
  val_eqb (col_of r c) v.

Record table : Type := mkTable {
  t_name : string;
  t_virtual : bool;              (* CREATE VIRTUAL TABLE ... USING RTREE *)
  t_columns : list string;       (* the column definitions, as written *)
  t_rows : list row
}.

(** [CREATE TRIGGER g_name BEFORE DELETE ON g_on
     BEGIN DELETE FROM g_target WHERE g_col = old.g_old; END] *)
Record trigger : Type := mkTrigger {
  g_name : string;
  g_on : string;
  g_target : string;
  g_col : string;
  g_old : string
}.

Record db : Type := mkDb {
  tables : list table;
  triggers : list trigger
}.

Definition empty_db : db := mkDb [] [].

Definition find_table (d : db) (n : string) : option table :=
  find (fun t => String.eqb (t_name t) n) (tables d).

Definition has_table (d : db) (n : string) : bool :=
  match find_table d n with
  | Some _ => true
  | None => false
  end.

Definition has_trigger (d : db) (n : string) : bool :=
  existsb (fun g => String.eqb (g_name g) n) (triggers d).

Definition rows_of (d : db) (n : string) : list row :=
  match find_table d n with
  | Some t => t_rows t
  | None => []
  end.

Definition triggers_on (d : db) (n : string) : list trigger :=
  filter (fun g => String.eqb (g_on g) n) (triggers d).

(** ** The statements of the script *)

Inductive stmt : Type :=
| CreateTable (name : string) (virtual : bool) (columns : list string)
| CreateTrigger (g : trigger).

(** One [CREATE ... IF NOT EXISTS] statement.  A trigger on a table that
    does not exist, or on a virtual table, is an error ([None]). *)
Definition exec_stmt (d : db) (s : stmt) : option db :=
  match s with
  | CreateTable n v cols =>
      if has_table d n then Some d
      else Some (mkDb (tables d ++ [mkTable n v cols []]) (triggers d))
  | CreateTrigger g =>
      if has_trigger d (g_name g) then Some d
      else match find_table d (g_on g) with
           | None => None
           | Some t =>
               if t_virtual t then None
               else Some (mkDb (tables d) (triggers d ++ [g]))
           end
  end.

(** [db.executescript]: the statements in order, stopping at an error. *)
Fixpoint executescript (d : db) (script : list stmt) : option db :=
  match script with
  | [] => Some d
  | s :: rest =>
      match exec_stmt d s with
      | None => None
      | Some d' => executescript d' rest
      end
  end.

Definition rtree_columns (key : string) : list string :=
  [key ++ " INTEGER PRIMARY KEY"; "mjd0 FLOAT"; "mjd1 FLOAT"; "x0 FLOAT";
   "x1 FLOAT"; "y0 FLOAT"; "y1 FLOAT"; "z0 FLOAT"; "z1 FLOAT"].

(** The script of [create], statement by statement. *)
Definition schema (obs_table : string) (obs_columns : list string)
  : list stmt :=
  [ CreateTable "obj" false ["objid INTEGER PRIMARY KEY"; "desg TEXT UNIQUE"];
    CreateTable "eph" false
      ["ephid INTEGER PRIMARY KEY"; "objid INTEGER"; "jd FLOAT"; "rh FLOAT";
       "delta FLOAT"; "ra FLOAT"; "dec FLOAT"; "dra FLOAT"; "ddec FLOAT";
       "vmag FLOAT"; "retrieved TEXT";
       "FOREIGN KEY(objid) REFERENCES obj(objid)"];
    CreateTable "eph_tree" true (rtree_columns "ephid");
    CreateTrigger
      (mkTrigger "delete_eph_from_tree" "eph" "eph_tree" "ephid" "ephid");
    CreateTrigger
      (mkTrigger "delete_object_from_eph" "obj" "eph" "objid" "objid");
    CreateTable obs_table false obs_columns;
    CreateTable (obs_table ++ "_tree") true (rtree_columns "obsid");
    CreateTrigger
      (mkTrigger ("delete_obs_from_" ++ obs_table ++ "_tree")
         obs_table (obs_table ++ "_tree") "obsid" "obsid");
    CreateTable (obs_table ++ "_found") false
      ["foundid INTEGER PRIMARY KEY"; "objid INTEGER"; "obsid INTEGER";
       "obsjd TEXT"; "ra FLOAT"; "dec FLOAT"; "dra FLOAT"; "ddec FLOAT";
       "ra3sig FLOAT"; "dec3sig FLOAT"; "vmag FLOAT"; "rh FLOAT";
       "rdot FLOAT"; "delta FLOAT"; "phase FLOAT"; "selong FLOAT";
       "sangle FLOAT"; "vangle FLOAT"; "trueanomaly FLOAT"; "tmtp FLOAT";
       "FOREIGN KEY(obsid) REFERENCES " ++ obs_table ++ "(obsid)";
       "FOREIGN KEY(objid) REFERENCES obj(objid)"];
    CreateTrigger
      (mkTrigger ("delete_obs_from_" ++ obs_table ++ "_found")
         obs_table (obs_table ++ "_found") "obsid" "obsid");
    CreateTrigger
      (mkTrigger ("delete_obj_from_" ++ obs_table ++ "_found")
         obs_table (obs_table ++ "_found") "obsid" "obsid") ].

(** [create(db, obs_table, obs_columns)] *)
Definition create (d : db) (obs_table : string) (obs_columns : list string)
  : option db :=
  executescript d (schema obs_table obs_columns).

(** The triggers the script defines, in its order. *)
Definition schema_triggers (obs_table : string) : list trigger :=
  flat_map (fun s => match s with
                     | CreateTrigger g => [g]
                     | CreateTable _ _ _ => []
                     end) (schema obs_table []).

(** ** Rows: INSERT and DELETE *)

Definition set_rows (t : table) (rs : list row) : table :=
  mkTable (t_name t) (t_virtual t) (t_columns t) rs.

(** Rewrites the rows of the table named [n] (names are unique: the first
    table of that name is the table). *)
Fixpoint update_rows (ts : list table) (n : string)
    (f : list row -> list row) : list table :=
  match ts with
  | [] => []
  | t :: ts' =>
      if String.eqb (t_name t) n then set_rows t (f (t_rows t)) :: ts'
      else t :: update_rows ts' n f
  end.

(** [INSERT INTO n VALUES r] *)
Definition insert_into (d : db) (n : string) (r : row) : db :=
  mkDb (update_rows (tables d) n (fun rs => (rs ++ [r])%list)) (triggers d).

(** The rows with [c = v] leave the table [n]. *)
Definition remove_rows (d : db) (n c : string) (v : value) : db :=
  mkDb (update_rows (tables d) n (filter (fun r => negb (matches c v r))))
       (triggers d).

(** The triggers [gs] fire for the row [r] about to be deleted; [del] runs
    a trigger's [DELETE]. *)
Definition fire (del : db -> string -> string -> value -> option db)
    (gs : list trigger) (r : row) (acc : option db) : option db :=
  fold_left
    (fun acc g =>
       match acc with
       | None => None
       | Some d => del d (g_target g) (g_col g) (col_of r (g_old g))
       end) gs acc.

(** [DELETE FROM n WHERE c = v].  Before each matching row goes, the
    [BEFORE DELETE] triggers on [n] fire, and their own deletes fire the
    triggers of their targets in turn.  [fuel] bounds the nesting of trigger
    programs (SQLite's trigger depth limit): [None] when it is exceeded, and
    when the table does not exist. *)
Fixpoint delete_from (fuel : nat) (d : db) (n c : string) (v : value)
  : option db :=
  match fuel with
  | O => None
  | S fuel' =>
      match find_table d n with
      | None => None
      | Some t =>
          let victims := filter (matches c v) (t_rows t) in
          match fold_left
                  (fun acc r =>
                     fire (delete_from fuel') (triggers_on d n) r acc)
                  victims (Some d) with
          | None => None
          | Some d1 => Some (remove_rows d1 n c v)
          end
      end
  end.

(** A database laid out by the script: its triggers are the script's, and
    the three ephemeris tables exist. *)
Definition has_schema (obs_table : string) (d : db) : Prop :=
  triggers d = schema_triggers obs_table /\
  has_table d "obj" = true /\ has_table d "eph" = true /\
  has_table d "eph_tree" = true.

(** Whether the object a statement creates is there already. *)
Definition present (d : db) (s : stmt) : bool :=
  match s with
  | CreateTable n _ _ => has_table d n
  | CreateTrigger g => has_trigger d (g_name g)
  end.

(** ** A small database for examples: table [obs], one object, one
    observation, one ephemeris point with its index entry, one match. *)

Definition obs_columns_example : list string :=
  ["obsid INTEGER PRIMARY KEY"; "jd_start FLOAT"; "jd_stop FLOAT"].

Definition fresh_db : db :=
  match create empty_db "obs" obs_columns_example with
  | Some d => d
  | None => empty_db
  end.

Definition example_db : db :=
  let d := insert_into fresh_db "obj"
             [("objid", VInt 1); ("desg", VText "2P")] in
  let d := insert_into d "eph" [("ephid", VInt 10); ("objid", VInt 1)] in
  let d := insert_into d "eph_tree" [("ephid", VInt 10)] in
  let d := insert_into d "obs" [("obsid", VInt 5)] in
  let d := insert_into d "obs_tree" [("obsid", VInt 5)] in
  insert_into d "obs_found"
    [("foundid", VInt 1); ("objid", VInt 1); ("obsid", VInt 5)].

(** ** Relations between databases, for the statements below *)

(** [d'] has the tables and triggers of [d], followed by others. *)
Definition extends (d d' : db) : Prop :=
  (exists nt, tables d' = (tables d ++ nt)%list) /\
  (exists ng, triggers d' = (triggers d ++ ng)%list).






End Schema.

(** ** Spherical geometry *)

Module Geometry.

Local Open Scope R_scope.

(** ** Vectors: numpy arrays of three numbers *)

Definition vec : Type := (R * R * R)%type.

Definition vx (v : vec) : R := fst (fst v).
Definition vy (v : vec) : R := snd (fst v).
Definition vz (v : vec) : R := snd v.

(** [a + b], [v * k], [(a * b).sum()], [np.cross(a, b)] *)
Definition vadd (a b : vec) : vec := (vx a + vx b, vy a + vy b, vz a + vz b).
Definition vscale (v : vec) (k : R) : vec := (vx v * k, vy v * k, vz v * k).
Definition dot (a b : vec) : R := vx a * vx b + vy a * vy b + vz a * vz b.
Definition cross (a b : vec) : vec :=
  (vy a * vz b - vz a * vy b,
   vz a * vx b - vx a * vz b,
   vx a * vy b - vy a * vx b).

(** [np.sqrt((v**2).sum())] *)
Definition norm (v : vec) : R := sqrt (dot v v).

(** ** Comparisons and the library's angle functions *)

Definition Rltb (x y : R) : bool := if Rlt_dec x y then true else false.
Definition Rgtb (x y : R) : bool := Rltb y x.

(** [np.hypot] and [np.arctan2], the latter in (-PI, PI]. *)
Definition hypot (x y : R) : R := sqrt (x * x + y * y).

Definition atan2 (y x : R) : R :=
  if Rlt_dec 0 x then atan (y / x)
  else if Rlt_dec x 0 then
    if Rle_dec 0 y then atan (y / x) + PI else atan (y / x) - PI
  else if Rlt_dec 0 y then PI / 2
  else if Rlt_dec y 0 then - (PI / 2)
  else 0.

(** astropy's [Angle.wrap_at(w)]: the angle moved by whole turns into
    [[w - 2 PI, w)]; [np.mod(a - w, 2 PI) - (2 PI - w)]. *)
Definition wrap_at (a w : R) : R :=
  a - 2 * PI * (IZR (Int_part ((a - w) / (2 * PI))) + 1).

(** astropy's [angular_separation] (Vincenty's formula). *)
Definition angular_separation (lon1 lat1 lon2 lat2 : R) : R :=
  let sdlon := sin (lon2 - lon1) in
  let cdlon := cos (lon2 - lon1) in
  let slat1 := sin lat1 in
  let slat2 := sin lat2 in
  let clat1 := cos lat1 in
  let clat2 := cos lat2 in
  let num1 := clat2 * sdlon in
  let num2 := clat1 * slat2 - slat1 * clat2 * cdlon in
  let denominator := slat1 * slat2 + clat1 * clat2 * cdlon in
  atan2 (hypot num1 num2) denominator.

(** [Angle(np.arctan2(y, x)).wrap_at(360 deg)], in [[0, 2 PI)]. *)
Definition angle_of (y x : R) : R := wrap_at (atan2 y x) (2 * PI).

(** astropy's [position_angle], East of North. *)
Definition position_angle_of (lon1 lat1 lon2 lat2 : R) : R :=
  let deltalon := lon2 - lon1 in
  let colat := cos lat2 in
  let x := sin lat2 * cos lat1 - colat * sin lat1 * cos deltalon in
  let y := sin deltalon * colat in
  angle_of y x.

(** ** Sky coordinates *)

Record SkyCoord : Type := mkSky { ra : R; dec : R }.

(** [SkyCoord(ra, dec)]: the longitude is kept in [[0, 2 PI)]. *)
Definition SkyCoord_of (lon lat : R) : SkyCoord :=
  mkSky (wrap_at lon (2 * PI)) lat.

Definition separation (c0 c1 : SkyCoord) : R :=
  angular_separation (ra c0) (dec c0) (ra c1) (dec c1).

Definition position_angle (c0 c1 : SkyCoord) : R :=
  position_angle_of (ra c0) (dec c0) (ra c1) (dec c1).

(** [coords.cartesian_to_spherical(x, y, z)]: distance, latitude,
    longitude. *)
Definition cartesian_to_spherical (v : vec) : R * R * R :=
  let s := hypot (vx v) (vy v) in
  (hypot s (vz v), atan2 (vz v) s, wrap_at (atan2 (vy v) (vx v)) (2 * PI)).

(** ** util.py *)

Definition sc2xyz (sc : SkyCoord) : vec :=
  (cos (dec sc) * cos (ra sc), cos (dec sc) * sin (ra sc), sin (dec sc)).

Definition rd2xyz (ra dec : R) : vec :=
  (cos dec * cos ra, cos dec * sin ra, sin dec).

Definition vector_rotate (r n : vec) (th : R) : vec :=
  vadd (vadd (vscale r (cos (- th)))
             (vscale (vscale n (dot n r)) (1 - cos (- th))))
       (vscale (cross r n) (sin (- th))).

(** [n /= np.sqrt((n**2).sum())]: undefined when the norm is zero. *)
Definition normalize (n : vec) : option vec :=
  if Req_dec_T (norm n) 0 then None else Some (vscale n (/ norm n)).

(** [spherical_interpolation(c0, c1, t0, t1, t2)]; undefined when
    [t1 = t0] or when the cross product of the anchors vanishes. *)
Definition spherical_interpolation (c0 c1 : SkyCoord) (t0 t1 t2 : R)
  : option SkyCoord :=
  if Req_dec_T (t1 - t0) 0 then None
  else
    let dt := (t2 - t0) / (t1 - t0) in
    let w := separation c0 c1 in
    let a := sc2xyz c0 in
    let b := sc2xyz c1 in
    match normalize (cross a b) with
    | None => None
    | Some n =>
        let c := vector_rotate a n (w * dt) in
        let '(d, dec, ra) := cartesian_to_spherical c in
        Some (SkyCoord_of ra dec)
    end.




(** [np.argsort]: the indices, by a stable insertion sort. *)
Fixpoint insert_by_value (p : nat * R) (l : list (nat * R))
  : list (nat * R) :=
  match l with
  | [] => [p]
  | q :: l' =>
      if Rltb (snd p) (snd q) then p :: q :: l'
      else q :: insert_by_value p l'
  end.

Definition argsort (xs : list R) : list nat :=
  map fst
    (fold_left (fun acc p => insert_by_value p acc)
       (combine (seq 0 (List.length xs)) xs) []).

(** [pa.min()] and [pa.sort()] for the two corner angles. *)
Definition min2 (pa : R * R) : R := Rmin (fst pa) (snd pa).
Definition sort2 (pa : R * R) : R * R :=
  if Rltb (snd pa) (fst pa) then (snd pa, fst pa) else pa.

(** One half of [interior_test]: seen from [c], is [point] between the
    corners [ci] and [cj]?  [false] is the early [return False]. *)
Definition half_test (c ci cj point : SkyCoord) : bool :=
  let pa := (position_angle c ci, position_angle c cj) in
  let wrap := min2 pa in
  let pa := sort2 (wrap_at (fst pa) wrap, wrap_at (snd pa) wrap) in
  let pa_test := wrap_at (position_angle c point) wrap in
  negb (Rltb pa_test (fst pa) || Rgtb pa_test (snd pa)).

Definition corner (corners : list SkyCoord) (i : nat) : SkyCoord :=
  nth i corners (mkSky 0 0).

(** [interior_test(point, corners)]; [None] when [corners] does not hold
    exactly four points (the unpacking of [i, j, k] raises). *)
Definition interior_test (point : SkyCoord) (corners : list SkyCoord)
  : option bool :=
  match corners with
  | [c0; c1; c2; c3] =>
      match map S (argsort (map (separation c0) [c1; c2; c3])) with
      | [i; j; k] =>
          if negb (half_test c0 (corner corners i) (corner corners j) point)
          then Some false
          else if negb (half_test (corner corners k) (corner corners i)
                          (corner corners j) point)
          then Some false
          else Some true
      | _ => None
      end
  | _ => None
  end.

(** ** The notions the specification speaks of *)

Definition vneg (v : vec) : vec := vscale v (-1).




(** The half test in the specification's words: with the branch cut at the
    smaller corner angle, the point's wrapped angle lies between the two
    wrapped corner angles. *)
Definition between_wrapped (c ci cj point : SkyCoord) : Prop :=
  let w := Rmin (position_angle c ci) (position_angle c cj) in
  Rmin (wrap_at (position_angle c ci) w) (wrap_at (position_angle c cj) w)
    <= wrap_at (position_angle c point) w
    <= Rmax (wrap_at (position_angle c ci) w) (wrap_at (position_angle c cj) w).

(** The diagonal in the specification's words: the pair of corners whose
    separation no other pair exceeds (the first such pair). *)
Definition corner_pairs : list (nat * nat) :=
  [(0, 1); (0, 2); (0, 3); (1, 2); (1, 3); (2, 3)]%nat.

Definition pair_separation (corners : list SkyCoord) (p : nat * nat) : R :=
  separation (corner corners (fst p)) (corner corners (snd p)).

Definition is_farthest (corners : list SkyCoord) (p : nat * nat) : bool :=
  forallb (fun q => negb (Rltb (pair_separation corners p)
                               (pair_separation corners q)))
          corner_pairs.

Definition farthest_pair (corners : list SkyCoord) : option (nat * nat) :=
  find (is_farthest corners) corner_pairs.

(** The two corners off the diagonal. *)
Definition off_diagonal (p : nat * nat) : nat * nat :=
  match filter (fun n => negb (Nat.eqb n (fst p)) && negb (Nat.eqb n (snd p)))
               [0; 1; 2; 3]%nat with
  | [i; j] => (i, j)
  | _ => (0, 0)%nat
  end.

(** [interior_test] as the specification describes it: the half test from
    both ends of the farthest pair. *)
Definition interior_test_spec (point : SkyCoord) (corners : list SkyCoord)
  : option bool :=
  match corners with
  | [_; _; _; _] =>
      match farthest_pair corners with
      | Some (a, b) =>
          let '(i, j) := off_diagonal (a, b) in
          Some (half_test (corner corners a) (corner corners i)
                  (corner corners j) point
                && half_test (corner corners b) (corner corners i)
                     (corner corners j) point)
      | None => None
      end
  | _ => None
  end.

(** ** Inputs of the examples *)



(** The footprint of [test_interior_test], one hour angle wide and one
    degree high, in the test's first two corner orders, and its interior
    point. *)
Definition hourangle : R := PI / 12.
Definition degree : R := PI / 180.

Definition footprint (h d : R) : list SkyCoord :=
  [mkSky 0 0; mkSky h 0; mkSky h d; mkSky 0 d].
Definition footprint_relabelled (h d : R) : list SkyCoord :=
  [mkSky h 0; mkSky h d; mkSky 0 d; mkSky 0 0].
Definition centre (h d : R) : SkyCoord := mkSky (h / 2) (d / 2).

(** A kite: its long diagonal lies on the equator between corners 3 and 1,
    its short one on a meridian between corners 0 and 2. *)
Definition kite : list SkyCoord :=
  [mkSky (PI / 6) (PI / 6); mkSky (PI / 2) 0;
   mkSky (PI / 6) (- (PI / 6)); mkSky 0 0].
Definition kite_point : SkyCoord := mkSky (PI / 3) 0.

(** The same footprint in the test's third corner order. *)
Definition footprint_crossed (h d : R) : list SkyCoord :=
  [mkSky 0 0; mkSky h 0; mkSky 0 d; mkSky h d].

End Geometry.

(** ** logging.ProgressTriangle *)

Module Progress.

Local Open Scope Z_scope.

(** [s * k] for a one-character string: [k] copies, none when [k <= 0]. *)
Definition repeat_char (c : ascii) (k : Z) : string :=
  string_of_list_ascii (List.repeat c (Z.to_nat k)).

(** A [ProgressTriangle] made without [base]: [n] steps per dot, the count
    [i], and the messages sent to the logger so far (or printed, without a
    logger), oldest first. *)
Record triangle : Type := mkTriangle {
  tri_n : Z;
  tri_i : Z;
  tri_log : list string
}.

(** [_logger(dots=dots)] *)
Definition log_dots (t : triangle) (dots : Z) : triangle :=
  mkTriangle (tri_n t) (tri_i t) (tri_log t ++ [repeat_char "."%char dots]).

(** [reset()], the start time left out. *)
Definition reset (t : triangle) : triangle :=
  mkTriangle (tri_n t) 0 (tri_log t).

(** [update(n)] without [base]; [None] is the [ZeroDivisionError] of
    [% self.n] when [self.n] is zero. *)
Definition update (t : triangle) (n : Z) : option triangle :=
  let last := tri_i t in
  let t := mkTriangle (tri_n t) (tri_i t + n) (tri_log t) in
  if Z.eqb (tri_n t) 0 then None
  else if Z.geb (last mod tri_n t) (tri_i t mod tri_n t)
       then Some (log_dots t (tri_i t / tri_n t))
       else Some t.

(** [m] calls of [update()]. *)
Fixpoint updates (m : nat) (t : triangle) : option triangle :=
  match m with
  | O => Some t
  | S m' =>
      match update t 1 with
      | None => None
      | Some t' => updates m' t'
      end
  end.

(** Rows of 1, 2, ..., [k] dots. *)
Definition rows_of_dots (k : nat) : list string :=
  map (fun j => repeat_char "."%char (Z.of_nat j)) (seq 1 k).

(** How many rows of dots are due at the count [i]. *)
Definition due (n i : Z) : nat := Z.to_nat (i / n).

End Progress.

(* ================================================================== *)
(** * Part II: what they do *)
(* ================================================================== *)

(** ** assemble_sql *)

Module SqlFacts.

Import Sql.
Local Open Scope string_scope.

Section AssembleSql.

Variable value : Type.

Lemma split_fst (cs : list (constraint value)) : fst (List.split cs) = map fst cs.
Proof.
  induction cs as [|[e p] cs IH]; simpl; [reflexivity|].
  destruct (List.split cs); simpl in *; congruence.
Qed.

Lemma split_snd (cs : list (constraint value)) : snd (List.split cs) = map snd cs.
Proof.
  induction cs as [|[e p] cs IH]; simpl; [reflexivity|].
  destruct (List.split cs); simpl in *; congruence.
Qed.

Lemma join_cons (sep a b : string) (l : list string) :
  join sep (a :: b :: l) = a ++ sep ++ join sep (b :: l).
Proof. reflexivity. Qed.

Lemma join_where_clause (cs : list (constraint value)) :
  join " AND " (map fst cs) = where_clause cs.
Proof.
  induction cs as [|[e p] cs IH]; [reflexivity|].
  destruct cs as [|[e' p'] cs]; [reflexivity|].
  cbn [map fst] in *. rewrite join_cons, IH. reflexivity.
Qed.

Lemma not_none_bound (cs : list (constraint value)) :
  not_none (map snd cs) = bound_parameters cs.
Proof.
  induction cs as [|[e [p|]] cs IH]; simpl; congruence.
Qed.

(** C10. With no constraint, [assemble_sql] returns [cmd] and the parameter
    list untouched; with at least one, it returns [cmd], one [" WHERE "] and
    the expressions joined by [" AND "] in order, and the very list object it
    was given, extended in place by the constraints' parameters that are not
    [None], in order; no other list object changes. *)
Theorem assemble_sql_spec (h : store value) (cmd : string) (parameters : loc)
    (c : constraint value) (cs : list (constraint value)) :
  assemble_sql h cmd parameters [] = ((cmd, parameters), h) /\
  fst (assemble_sql h cmd parameters (c :: cs))
    = (cmd ++ " WHERE " ++ where_clause (c :: cs), parameters) /\
  forall l : loc,
    snd (assemble_sql h cmd parameters (c :: cs)) l
      = if Nat.eqb l parameters
        then (h parameters ++ bound_parameters (c :: cs))%list
        else h l.
Proof.
  split; [reflexivity|].
  unfold assemble_sql.
  change (Nat.ltb 0 (List.length (c :: cs))) with true. cbv iota.
  pose proof (split_fst (c :: cs)) as Hf.
  pose proof (split_snd (c :: cs)) as Hs.
  destruct (List.split (c :: cs)) as [expr params].
  simpl fst in Hf. simpl snd in Hs. subst expr params.
  rewrite join_where_clause, not_none_bound.
  split; [reflexivity|]. intro l. reflexivity.
Qed.

End AssembleSql.

Lemma test_assemble_sql :
  fst (assemble_sql test_store "SELECT * FROM table" 0 test_constraints)
    = ("SELECT * FROM table WHERE v > ? AND v < 2", 0) /\
  snd (assemble_sql test_store "SELECT * FROM table" 0 test_constraints) 0
    = [1%Z].
Proof. split; reflexivity. Qed.

(** ** date_constraints, repeated calls, iterate_over *)

Section DateConstraints.

Variable value : Type.

(** The store after [assemble_sql], whatever the constraints. *)
Lemma assemble_sql_store (h : store value) (cmd : string) (parameters : loc)
    (cs : list (constraint value)) (l : loc) :
  snd (assemble_sql h cmd parameters cs) l
    = if Nat.eqb l parameters
      then (h parameters ++ bound_parameters cs)%list
      else h l.
Proof.
  destruct cs as [|c cs].
  - simpl. rewrite app_nil_r. destruct (Nat.eqb l parameters) eqn:E;
      [apply Nat.eqb_eq in E; subst|]; reflexivity.
  - unfold assemble_sql.
    change (Nat.ltb 0 (List.length (c :: cs))) with true. cbv iota.
    pose proof (split_snd value (c :: cs)) as Hs.
    destruct (List.split (c :: cs)) as [expr params].
    simpl snd in Hs. subst params. rewrite not_none_bound. reflexivity.
Qed.

(** X1. A statement assembled from [date_constraints] reads [cmd] alone
    without bounds, and otherwise [cmd], [WHERE] and the tests of the bounds
    given, start before stop; the parameter list grows by exactly those
    bounds, in that order, one for each [?] added. *)
Theorem assemble_date_constraints (h : store value) (cmd : string)
    (parameters : loc) (jd_start jd_stop : option value) :
  fst (assemble_sql h cmd parameters (date_constraints jd_start jd_stop))
    = (match jd_start, jd_stop with
       | Some _, Some _ => cmd ++ " WHERE jd>=? AND jd<=?"
       | Some _, None => cmd ++ " WHERE jd>=?"
       | None, Some _ => cmd ++ " WHERE jd<=?"
       | None, None => cmd
       end, parameters) /\
  snd (assemble_sql h cmd parameters (date_constraints jd_start jd_stop))
      parameters
    = (h parameters
       ++ match jd_start with Some a => [a] | None => [] end
       ++ match jd_stop with Some b => [b] | None => [] end)%list /\
  placeholders (where_clause (date_constraints jd_start jd_stop))
    = List.length (bound_parameters (date_constraints jd_start jd_stop)).
Proof.
  split; [|split].
  - destruct jd_start, jd_stop; reflexivity.
  - rewrite assemble_sql_store, Nat.eqb_refl.
    destruct jd_start, jd_stop; reflexivity.
  - destruct jd_start, jd_stop; reflexivity.
Qed.

(** X2. Two calls of [assemble_sql] on the same parameter list keep
    extending it: after the second call it holds what it held at first,
    then the parameters of the first call's constraints, then those of the
    second; every other list is as it was. *)
Theorem assemble_sql_accumulates (h : store value) (cmd1 cmd2 : string)
    (parameters : loc) (cs1 cs2 : list (constraint value)) (l : loc) :
  snd (assemble_sql (snd (assemble_sql h cmd1 parameters cs1))
         cmd2 parameters cs2) l
    = if Nat.eqb l parameters
      then (h parameters ++ bound_parameters cs1 ++ bound_parameters cs2)%list
      else h l.
Proof.
  rewrite !assemble_sql_store, Nat.eqb_refl.
  destruct (Nat.eqb l parameters); [|reflexivity].
  rewrite app_assoc. reflexivity.
Qed.

End DateConstraints.

Section IterateOver.

Variable row : Type.

(** X3. On a cursor that fetches at least one row at a time,
    [iterate_over] returns after at most one turn of its loop per pending
    row and one more, having yielded every pending row once, in the
    cursor's order, and leaves the cursor exhausted. *)
Theorem iterate_over_yields_all (fuel : nat) :
  forall c : cursor row,
    (1 <= arraysize c)%nat ->
    (List.length (pending c) < fuel)%nat ->
    iterate_over fuel c = Some (pending c, mkCursor [] (arraysize c)).
Proof.
  induction fuel as [|fuel IH]; intros [rows size] Hs Hl; simpl in *; [lia|].
  destruct rows as [|r rows].
  - rewrite firstn_nil, skipn_nil. reflexivity.
  - destruct size as [|size]; [lia|]. cbn [firstn skipn].
    rewrite (IH (mkCursor (skipn size rows) (S size))); simpl.
    + rewrite firstn_skipn. reflexivity.
    + lia.
    + rewrite length_skipn. simpl in Hl. lia.
Qed.

End IterateOver.

(** Five rows, fetched two at a time. *)
Lemma iterate_over_yields_all_witness :
  (1 <= 2)%nat /\ (5 < 6)%nat /\
  iterate_over 6 (mkCursor [1; 2; 3; 4; 5]%nat 2)
    = Some ([1; 2; 3; 4; 5]%nat, mkCursor [] 2).
Proof.
  assert (A : (1 <= 2)%nat) by lia. assert (B : (5 < 6)%nat) by lia.
  split; [exact A|]. split; [exact B|].
  exact (iterate_over_yields_all nat 6 (mkCursor [1; 2; 3; 4; 5]%nat 2) A B).
Defined.

End SqlFacts.

(** ** schema.create *)

Module SchemaFacts.

Import Schema.
Local Open Scope string_scope.

(** ** Creating the schema twice *)

Local Open Scope list_scope.

Lemma find_app {A} (p : A -> bool) (l l' : list A) :
  find p (l ++ l') = match find p l with
                     | Some x => Some x
                     | None => find p l'
                     end.
Proof.
  induction l as [|a l IH]; simpl; [reflexivity|].
  destruct (p a); [reflexivity | exact IH].
Qed.

Lemma extends_refl (d : db) : extends d d.
Proof. split; exists []; rewrite app_nil_r; reflexivity. Qed.

Lemma extends_trans (a b c : db) : extends a b -> extends b c -> extends a c.
Proof.
  intros [[t1 H1] [g1 H2]] [[t2 H3] [g2 H4]]. split.
  - exists (t1 ++ t2). rewrite H3, H1, app_assoc. reflexivity.
  - exists (g1 ++ g2). rewrite H4, H2, app_assoc. reflexivity.
Qed.

Lemma find_table_extends (d d' : db) (n : string) (t : table) :
  extends d d' -> find_table d n = Some t -> find_table d' n = Some t.
Proof.
  intros [[nt Ht] _] H. unfold find_table in *.
  rewrite Ht, find_app, H. reflexivity.
Qed.

Lemma has_table_extends (d d' : db) (n : string) :
  extends d d' -> has_table d n = true -> has_table d' n = true.
Proof.
  intros E H. unfold has_table in *.
  destruct (find_table d n) as [t|] eqn:F; [|discriminate].
  rewrite (find_table_extends d d' n t E F). reflexivity.
Qed.




Lemma has_table_new (d : db) (t : table) (n : string) :
  has_table d n = false ->
  has_table (mkDb (tables d ++ [t]) (triggers d)) n = String.eqb (t_name t) n.
Proof.
  unfold has_table, find_table. simpl. rewrite find_app.
  destruct (find _ (tables d)); [discriminate|]. intros _. simpl.
  destruct (String.eqb (t_name t) n); reflexivity.
Qed.

(** What one statement does: nothing when its object is there; otherwise
    it adds that object, a table coming with no row. *)
Lemma exec_stmt_spec (d d' : db) (s : stmt) :
  exec_stmt d s = Some d' ->
  present d' s = true /\
  ((present d s = true /\ d' = d) \/
   (present d s = false /\
    match s with
    | CreateTable n v cols =>
        d' = mkDb (tables d ++ [mkTable n v cols []]) (triggers d)
    | CreateTrigger g => d' = mkDb (tables d) (triggers d ++ [g])
    end)).
Proof.
  destruct s as [n v cols | g]; simpl.
  - destruct (has_table d n) eqn:H; intros E; inversion E; subst.
    + split; [exact H | left; split; reflexivity].
    + split; [| right; split; reflexivity].
      rewrite has_table_new by exact H. apply String.eqb_refl.
  - destruct (has_trigger d (g_name g)) eqn:H.
    + intros E; inversion E; subst.
      split; [exact H | left; split; reflexivity].
    + destruct (find_table d (g_on g)) as [t|]; [|discriminate].
      destruct (t_virtual t); [discriminate|].
      intros E; inversion E; subst.
      split; [| right; split; reflexivity].
      unfold has_trigger. simpl. rewrite existsb_app. simpl.
      rewrite String.eqb_refl, orb_true_r. reflexivity.
Qed.

Lemma exec_stmt_extends (d d' : db) (s : stmt) :
  exec_stmt d s = Some d' -> extends d d'.
Proof.
  intros E. destruct (exec_stmt_spec d d' s E) as [_ [[_ ->] | [_ H]]].
  - apply extends_refl.
  - destruct s; subst d'; split; simpl;
      solve [eexists; reflexivity | exists []; rewrite app_nil_r; reflexivity].
Qed.








(** ** Deleting with the schema's triggers *)











Section Cascade.

Variable obs_table : string.
Hypothesis not_obj : obs_table <> "obj".
Hypothesis not_eph : obs_table <> "eph".
Hypothesis not_eph_tree : obs_table <> "eph_tree".









End Cascade.


(** ** From [create] to [has_schema] *)

Lemma eqb_append_l (p a b : string) :
  String.eqb (p ++ a) (p ++ b)%string = String.eqb a b.
Proof.
  induction p as [|c p IH]; simpl; [reflexivity|].
  rewrite Ascii.eqb_refl. exact IH.
Qed.

Lemma exec_table_keeps_triggers (d d' : db) (n : string) (v : bool)
    (cols : list string) :
  exec_stmt d (CreateTable n v cols) = Some d' ->
  triggers d' = triggers d /\ has_table d' n = true.
Proof.
  intros E. destruct (exec_stmt_spec _ _ _ E) as [P [[_ ->] | [_ ->]]];
    split; try reflexivity; exact P.
Qed.

Lemma exec_trigger_new (d d' : db) (g : trigger) :
  exec_stmt d (CreateTrigger g) = Some d' ->
  has_trigger d (g_name g) = false ->
  triggers d' = triggers d ++ [g].
Proof.
  intros E H. destruct (exec_stmt_spec _ _ _ E) as [_ [[P _] | [_ ->]]];
    [simpl in P; congruence | reflexivity].
Qed.

(** On a database without triggers, a successful [create] lays out the
    schema: the five triggers of the script, in its order. *)
Lemma create_has_schema (d0 d : db) (obs_table : string)
    (obs_columns : list string) :
  triggers d0 = [] ->
  create d0 obs_table obs_columns = Some d ->
  has_schema obs_table d.
Proof.
  intros T0 E. unfold create, schema in E. cbn [executescript] in E.
  destruct (exec_stmt d0 _) as [d1|] eqn:Q1; [|discriminate].
  destruct (exec_stmt d1 _) as [d2|] eqn:Q2; [|discriminate].
  destruct (exec_stmt d2 _) as [d3|] eqn:Q3; [|discriminate].
  destruct (exec_stmt d3 _) as [d4|] eqn:Q4; [|discriminate].
  destruct (exec_stmt d4 _) as [d5|] eqn:Q5; [|discriminate].
  destruct (exec_stmt d5 _) as [d6|] eqn:Q6; [|discriminate].
  destruct (exec_stmt d6 _) as [d7|] eqn:Q7; [|discriminate].
  destruct (exec_stmt d7 _) as [d8|] eqn:Q8; [|discriminate].
  destruct (exec_stmt d8 _) as [d9|] eqn:Q9; [|discriminate].
  destruct (exec_stmt d9 _) as [d10|] eqn:Q10; [|discriminate].
  destruct (exec_stmt d10 _) as [d11|] eqn:Q11; [|discriminate].
  inversion E; subst d11; clear E.
  destruct (exec_table_keeps_triggers _ _ _ _ _ Q1) as [T1 A].
  destruct (exec_table_keeps_triggers _ _ _ _ _ Q2) as [T2 B].
  destruct (exec_table_keeps_triggers _ _ _ _ _ Q3) as [T3 C].
  rewrite T0 in T1. rewrite T1 in T2. rewrite T2 in T3.
  pose proof (exec_trigger_new _ _ _ Q4) as T4. unfold has_trigger in T4.
  rewrite T3 in T4. specialize (T4 eq_refl).
  pose proof (exec_trigger_new _ _ _ Q5) as T5. unfold has_trigger in T5.
  rewrite T4 in T5. specialize (T5 eq_refl).
  destruct (exec_table_keeps_triggers _ _ _ _ _ Q6) as [T6 _].
  destruct (exec_table_keeps_triggers _ _ _ _ _ Q7) as [T7 _].
  rewrite T5 in T6. rewrite T6 in T7.
  pose proof (exec_trigger_new _ _ _ Q8) as T8. unfold has_trigger in T8.
  rewrite T7 in T8. specialize (T8 eq_refl).
  destruct (exec_table_keeps_triggers _ _ _ _ _ Q9) as [T9 _].
  rewrite T8 in T9.
  pose proof (exec_trigger_new _ _ _ Q10) as T10. unfold has_trigger in T10.
  rewrite T9 in T10.
  assert (F : String.eqb ("delete_obs_from_" ++ obs_table ++ "_tree")
                ("delete_obs_from_" ++ obs_table ++ "_found")%string = false).
  { rewrite !eqb_append_l. reflexivity. }
  cbn [existsb g_name app] in T10. rewrite F in T10.
  specialize (T10 eq_refl).
  pose proof (exec_trigger_new _ _ _ Q11) as T11. unfold has_trigger in T11.
  rewrite T10 in T11. specialize (T11 eq_refl).
  assert (X3 : extends d3 d).
  { repeat (eapply extends_trans;
            [eapply exec_stmt_extends; eassumption|]).
    apply extends_refl. }
  assert (X2 : extends d2 d3) by (eapply exec_stmt_extends; eassumption).
  assert (X1 : extends d1 d2) by (eapply exec_stmt_extends; eassumption).
  split; [exact T11|]. split; [|split].
  - eauto using has_table_extends.
  - eauto using has_table_extends.
  - eauto using has_table_extends.
Qed.

(** ** The match records *)

(** C4. Deleting the object of the example database leaves its match record
    behind, while deleting the observation takes the record with it: both
    triggers on the match table hang on the observation table. *)
Lemma delete_object_keeps_found :
  (exists d',
     delete_from 3 example_db "obj" "objid" (VInt 1) = Some d' /\
     rows_of d' "obj" = [] /\
     rows_of d' "obs_found"
       = [[("foundid", VInt 1); ("objid", VInt 1); ("obsid", VInt 5)]]) /\
  (exists d',
     delete_from 3 example_db "obs" "obsid" (VInt 5) = Some d' /\
     rows_of d' "obs" = [] /\ rows_of d' "obs_found" = []) /\
  map g_on (filter (fun g => String.eqb (g_target g) "obs_found")
              (triggers example_db)) = ["obs"; "obs"].
Proof.
  split; [|split].
  - eexists. split; [reflexivity|]. split; reflexivity.
  - eexists. split; [reflexivity|]. split; reflexivity.
  - reflexivity.
Qed.

Local Open Scope string_scope.

(** ** Deletes in general *)












(** ** Names *)





(** ** Deleting observations *)

Section Observations.

Variable obs_table : string.
Hypothesis not_obj : obs_table <> "obj".
Hypothesis not_eph : obs_table <> "eph".









End Observations.


(** ** Deleting ephemeris points and objects *)


Section Ephemeris.

Variable obs_table : string.
Hypothesis not_obj : obs_table <> "obj".
Hypothesis not_eph : obs_table <> "eph".
Hypothesis not_eph_tree : obs_table <> "eph_tree".






End Ephemeris.



(** ** A new database *)




(** ** A name the observation table cannot take *)

Lemma find_table_new (d : db) (t : table) (m : string) :
  find_table (mkDb (tables d ++ [t]) (triggers d)) m
    = match find_table d m with
      | Some x => Some x
      | None => if String.eqb (t_name t) m then Some t else None
      end.
Proof. unfold find_table. simpl. rewrite find_app. reflexivity. Qed.

(** A statement leaves alone the tables and triggers of other names. *)
Lemma exec_stmt_others (d d' : db) (s : stmt) :
  exec_stmt d s = Some d' ->
  (forall m, match s with
             | CreateTable n _ _ => n <> m
             | CreateTrigger _ => True
             end -> find_table d' m = find_table d m) /\
  (forall m, match s with
             | CreateTable _ _ _ => True
             | CreateTrigger g => g_name g <> m
             end -> has_trigger d' m = has_trigger d m).
Proof.
  intros E. destruct (exec_stmt_spec _ _ _ E) as [_ [[_ ->] | [_ H]]];
    [split; reflexivity|].
  destruct s as [n v cols | g]; subst d'; split; intros m M;
    try reflexivity.
  - rewrite find_table_new. cbn [t_name].
    apply String.eqb_neq in M. rewrite M.
    destruct (find_table d m); reflexivity.
  - unfold has_trigger. cbn [triggers]. rewrite existsb_app. cbn [existsb].
    apply String.eqb_neq in M. rewrite M, !orb_false_r. reflexivity.
Qed.

Lemma exec_table_fresh (d d' : db) (n : string) (v : bool)
    (cols : list string) :
  exec_stmt d (CreateTable n v cols) = Some d' ->
  has_table d n = false ->
  find_table d' n = Some (mkTable n v cols []).
Proof.
  intros E H. cbn [exec_stmt] in E. rewrite H in E. injection E as <-.
  rewrite find_table_new. cbn [t_name]. unfold has_table in H.
  destruct (find_table d n); [discriminate|].
  rewrite String.eqb_refl. reflexivity.
Qed.

(** X10. [create] fails when the observation table is to be called
    [eph_tree], on every database that has no table of that name yet (and
    no trigger named as the script's first one on the observation table):
    the script makes [eph_tree] a virtual table, skips the observation
    table as existing, and then asks for a trigger on a virtual table. *)
Theorem create_rejects_index_name (d : db) (obs_columns : list string) :
  has_table d "eph_tree" = false ->
  has_trigger d "delete_obs_from_eph_tree_tree" = false ->
  create d "eph_tree" obs_columns = None.
Proof.
  intros HT HG. unfold create, schema. cbn [executescript].
  destruct (exec_stmt d _) as [d1|] eqn:Q1; [|reflexivity].
  destruct (exec_stmt d1 _) as [d2|] eqn:Q2; [|reflexivity].
  destruct (exec_stmt d2 _) as [d3|] eqn:Q3; [|reflexivity].
  destruct (exec_stmt d3 _) as [d4|] eqn:Q4; [|reflexivity].
  destruct (exec_stmt d4 _) as [d5|] eqn:Q5; [|reflexivity].
  destruct (exec_stmt d5 _) as [d6|] eqn:Q6; [|reflexivity].
  destruct (exec_stmt d6 _) as [d7|] eqn:Q7; [|reflexivity].
  destruct (exec_stmt_others _ _ _ Q1) as [F1 G1].
  destruct (exec_stmt_others _ _ _ Q2) as [F2 G2].
  destruct (exec_stmt_others _ _ _ Q3) as [_ G3].
  destruct (exec_stmt_others _ _ _ Q4) as [F4 G4].
  destruct (exec_stmt_others _ _ _ Q5) as [F5 G5].
  destruct (exec_stmt_others _ _ _ Q6) as [_ G6].
  destruct (exec_stmt_others _ _ _ Q7) as [F7 G7].
  assert (T2 : has_table d2 "eph_tree" = false).
  { unfold has_table in *. rewrite F2, F1 by discriminate. exact HT. }
  pose proof (exec_table_fresh _ _ _ _ _ Q3 T2) as T3.
  assert (T5 : find_table d5 "eph_tree"
               = Some (mkTable "eph_tree" true (rtree_columns "ephid") [])).
  { rewrite F5, F4 by exact I. exact T3. }
  assert (E6 : d6 = d5).
  { cbn [exec_stmt] in Q6. unfold has_table in Q6. rewrite T5 in Q6.
    congruence. }
  subst d6.
  assert (T7 : find_table d7 "eph_tree"
               = Some (mkTable "eph_tree" true (rtree_columns "ephid") [])).
  { rewrite F7 by discriminate. exact T5. }
  assert (G : has_trigger d7 "delete_obs_from_eph_tree_tree" = false).
  { rewrite G7, G5, G4, G3, G2, G1 by (exact I || discriminate). exact HG. }
  cbn [exec_stmt g_name g_on].
  change ("delete_obs_from_" ++ "eph_tree" ++ "_tree")
    with "delete_obs_from_eph_tree_tree".
  rewrite G, T7. reflexivity.
Qed.

(** The empty database. *)
Lemma create_rejects_index_name_witness :
  create empty_db "eph_tree" obs_columns_example = None.
Proof.
  apply (create_rejects_index_name empty_db obs_columns_example);
    reflexivity.
Defined.

(** ** When the script runs through *)









End SchemaFacts.

(** ** Spherical geometry *)

Module GeometryFacts.

Import Geometry.
Local Open Scope R_scope.

(** ** Comparisons, wrapping and arctan2 *)

Lemma two_PI_pos : 0 < 2 * PI.
Proof. pose proof PI_RGT_0. lra. Qed.

Lemma Int_part_unique (x : R) (k : Z) :
  IZR k <= x < IZR k + 1 -> Int_part x = k.
Proof.
  intros [H1 H2]. destruct (base_Int_part x) as [B1 B2].
  assert (A : (Int_part x < k + 1)%Z).
  { apply lt_IZR. rewrite plus_IZR. simpl. lra. }
  assert (B : (k < Int_part x + 1)%Z).
  { apply lt_IZR. rewrite plus_IZR. simpl. lra. }
  lia.
Qed.

Lemma wrap_at_unique (a w : R) (k : Z) :
  w - 2 * PI <= a + 2 * PI * IZR k < w ->
  wrap_at a w = a + 2 * PI * IZR k.
Proof.
  intros [H1 H2]. pose proof two_PI_pos as P. unfold wrap_at.
  assert (E : Int_part ((a - w) / (2 * PI)) = (- k - 1)%Z).
  { apply Int_part_unique. rewrite minus_IZR, opp_IZR. simpl.
    split.
    - apply Rmult_le_reg_r with (2 * PI); [exact P|].
      unfold Rdiv. rewrite Rmult_assoc, Rinv_l by lra. lra.
    - apply Rmult_lt_reg_r with (2 * PI); [exact P|].
      unfold Rdiv. rewrite Rmult_assoc, Rinv_l by lra. lra. }
  rewrite E, minus_IZR, opp_IZR. simpl. ring.
Qed.

Lemma wrap_at_range (a w : R) : w - 2 * PI <= wrap_at a w < w.
Proof.
  pose proof two_PI_pos as P. unfold wrap_at.
  destruct (base_Int_part ((a - w) / (2 * PI))) as [B1 B2].
  set (q := IZR (Int_part ((a - w) / (2 * PI)))) in *.
  assert (X : (a - w) / (2 * PI) * (2 * PI) = a - w).
  { unfold Rdiv. rewrite Rmult_assoc, Rinv_l by lra. ring. }
  assert (Y1 : q * (2 * PI) <= a - w) by (rewrite <- X; apply Rmult_le_compat_r; lra).
  assert (Y2 : a - w < (q + 1) * (2 * PI)) by (rewrite <- X; apply Rmult_lt_compat_r; lra).
  lra.
Qed.

(** ** arctan2 by quadrant *)

Lemma atan_pos (x : R) : 0 < x -> 0 < atan x.
Proof. intros H. rewrite <- atan_0. apply atan_increasing. exact H. Qed.

Lemma atan_neg (x : R) : x < 0 -> atan x < 0.
Proof. intros H. rewrite <- atan_0. apply atan_increasing. exact H. Qed.

Lemma atan2_right (y x : R) : 0 < x -> atan2 y x = atan (y / x).
Proof. intros H. unfold atan2. destruct (Rlt_dec 0 x); [reflexivity | contradiction]. Qed.

Lemma atan2_left_up (y x : R) : x < 0 -> 0 <= y -> atan2 y x = atan (y / x) + PI.
Proof.
  intros H Hy. unfold atan2. destruct (Rlt_dec 0 x); [lra|].
  destruct (Rlt_dec x 0); [|contradiction].
  destruct (Rle_dec 0 y); [reflexivity | contradiction].
Qed.

Lemma atan2_left_down (y x : R) : x < 0 -> y < 0 -> atan2 y x = atan (y / x) - PI.
Proof.
  intros H Hy. unfold atan2. destruct (Rlt_dec 0 x); [lra|].
  destruct (Rlt_dec x 0); [|contradiction].
  destruct (Rle_dec 0 y); [lra | reflexivity].
Qed.

Lemma atan2_up (y : R) : 0 < y -> atan2 y 0 = PI / 2.
Proof.
  intros H. unfold atan2. destruct (Rlt_dec 0 0); [lra|].
  destruct (Rlt_dec 0 y); [reflexivity | contradiction].
Qed.

Lemma atan2_down (y : R) : y < 0 -> atan2 y 0 = - (PI / 2).
Proof.
  intros H. unfold atan2. destruct (Rlt_dec 0 0); [lra|].
  destruct (Rlt_dec 0 y); [lra|].
  destruct (Rlt_dec y 0); [reflexivity | contradiction].
Qed.

Lemma atan2_origin : atan2 0 0 = 0.
Proof.
  unfold atan2. destruct (Rlt_dec 0 0); [lra|]. reflexivity.
Qed.

Lemma div_pos_pos (y x : R) : 0 < x -> 0 < y -> 0 < y / x.
Proof. intros. apply Rdiv_lt_0_compat; assumption. Qed.

Lemma div_neg_pos (y x : R) : 0 < x -> y < 0 -> y / x < 0.
Proof.
  intros Hx Hy. unfold Rdiv. pose proof (Rinv_0_lt_compat x Hx). nra.
Qed.

Lemma div_pos_neg (y x : R) : x < 0 -> 0 < y -> y / x < 0.
Proof.
  intros Hx Hy. unfold Rdiv. pose proof (Rinv_lt_0_compat x Hx). nra.
Qed.

Lemma div_neg_neg (y x : R) : x < 0 -> y < 0 -> 0 < y / x.
Proof.
  intros Hx Hy. unfold Rdiv. pose proof (Rinv_lt_0_compat x Hx). nra.
Qed.

(** The wrapped angle, direction by direction. *)

Lemma angle_of_nonneg (y x : R) : 0 <= atan2 y x < 2 * PI -> angle_of y x = atan2 y x.
Proof.
  intros H. unfold angle_of.
  rewrite (wrap_at_unique _ _ 0%Z); simpl; lra.
Qed.

Lemma angle_of_neg (y x : R) : - (2 * PI) <= atan2 y x < 0 -> angle_of y x = atan2 y x + 2 * PI.
Proof.
  intros H. unfold angle_of.
  rewrite (wrap_at_unique _ _ 1%Z); simpl; lra.
Qed.

Lemma angle_north (x : R) : 0 < x -> angle_of 0 x = 0.
Proof.
  intros H. pose proof PI_RGT_0.
  assert (E : atan2 0 x = 0).
  { rewrite atan2_right by exact H. unfold Rdiv. rewrite Rmult_0_l. apply atan_0. }
  rewrite angle_of_nonneg; rewrite E; lra.
Qed.

Lemma angle_ne (y x : R) : 0 < x -> 0 < y -> 0 < angle_of y x < PI / 2.
Proof.
  intros Hx Hy. pose proof PI_RGT_0.
  pose proof (atan_pos _ (div_pos_pos y x Hx Hy)).
  pose proof (atan_bound (y / x)).
  rewrite angle_of_nonneg; rewrite atan2_right by exact Hx; lra.
Qed.

Lemma angle_east (y : R) : 0 < y -> angle_of y 0 = PI / 2.
Proof.
  intros H. pose proof PI_RGT_0.
  rewrite angle_of_nonneg; rewrite atan2_up by exact H; lra.
Qed.

Lemma angle_se (y x : R) : x < 0 -> 0 < y -> PI / 2 < angle_of y x < PI.
Proof.
  intros Hx Hy. pose proof PI_RGT_0.
  pose proof (atan_neg _ (div_pos_neg y x Hx Hy)).
  pose proof (atan_bound (y / x)).
  rewrite angle_of_nonneg; rewrite atan2_left_up by lra; lra.
Qed.

Lemma angle_south (x : R) : x < 0 -> angle_of 0 x = PI.
Proof.
  intros H. pose proof PI_RGT_0.
  assert (E : atan2 0 x = PI).
  { rewrite atan2_left_up by lra. unfold Rdiv. rewrite Rmult_0_l, atan_0. lra. }
  rewrite angle_of_nonneg; rewrite E; lra.
Qed.

Lemma angle_sw (y x : R) : x < 0 -> y < 0 -> PI < angle_of y x < 3 * (PI / 2).
Proof.
  intros Hx Hy. pose proof PI_RGT_0.
  pose proof (atan_pos _ (div_neg_neg y x Hx Hy)).
  pose proof (atan_bound (y / x)).
  rewrite angle_of_neg; rewrite atan2_left_down by lra; lra.
Qed.

Lemma angle_west (y : R) : y < 0 -> angle_of y 0 = 3 * (PI / 2).
Proof.
  intros H. pose proof PI_RGT_0.
  rewrite angle_of_neg; rewrite atan2_down by exact H; lra.
Qed.

Lemma angle_nw (y x : R) : 0 < x -> y < 0 -> 3 * (PI / 2) < angle_of y x < 2 * PI.
Proof.
  intros Hx Hy. pose proof PI_RGT_0.
  pose proof (atan_neg _ (div_neg_pos y x Hx Hy)).
  pose proof (atan_bound (y / x)).
  rewrite angle_of_neg; rewrite atan2_right by exact Hx; lra.
Qed.

Lemma angle_of_range (y x : R) : 0 <= angle_of y x < 2 * PI.
Proof.
  pose proof (wrap_at_range (atan2 y x) (2 * PI)). unfold angle_of. lra.
Qed.

(** ** Rotations and the sphere *)

Lemma sin2_cos2' (x : R) : sin x * sin x + cos x * cos x = 1.
Proof. pose proof (sin2_cos2 x) as H. unfold Rsqr in H. exact H. Qed.

Lemma vec_eq (a b : vec) : vx a = vx b -> vy a = vy b -> vz a = vz b -> a = b.
Proof.
  destruct a as [[a1 a2] a3], b as [[b1 b2] b3]. unfold vx, vy, vz. simpl.
  intros -> -> ->. reflexivity.
Qed.

Lemma vector_rotate_zero (r n : vec) : vector_rotate r n 0 = r.
Proof.
  unfold vector_rotate. rewrite Ropp_0, cos_0, sin_0.
  apply vec_eq; destruct r as [[? ?] ?], n as [[? ?] ?]; unfold vadd, vscale, cross, dot, vx, vy, vz; simpl; ring.
Qed.

Lemma dot_rotate (r n : vec) (th : R) :
  dot n n = 1 -> dot (vector_rotate r n th) (vector_rotate r n th) = dot r r.
Proof.
  intros Hn. unfold vector_rotate.
  pose proof (sin2_cos2' (- th)) as T.
  set (c := cos (- th)) in *. set (s := sin (- th)) in *.
  destruct r as [[rx ry] rz], n as [[nx ny] nz].
  unfold vadd, vscale, cross, dot, vx, vy, vz in *; simpl in *.
  nsatz.
Qed.

Lemma rotate_back (r n : vec) (th : R) :
  dot n n = 1 -> vector_rotate (vector_rotate r n th) n (- th) = r.
Proof.
  intros Hn. unfold vector_rotate. rewrite Ropp_involutive.
  pose proof (sin2_cos2' th) as T. rewrite cos_neg, sin_neg.
  set (c := cos th) in *. set (s := sin th) in *.
  destruct r as [[rx ry] rz], n as [[nx ny] nz].
  unfold vadd, vscale, cross, dot, vx, vy, vz in *; simpl in *.
  apply vec_eq; unfold vx, vy, vz; simpl; nsatz.
Qed.

Lemma sc2xyz_unit (c : SkyCoord) : dot (sc2xyz c) (sc2xyz c) = 1.
Proof.
  unfold sc2xyz, dot, vx, vy, vz; simpl.
  pose proof (sin2_cos2' (ra c)). pose proof (sin2_cos2' (dec c)). nsatz.
Qed.

Lemma separation_denominator (c0 c1 : SkyCoord) :
  sin (dec c0) * sin (dec c1) + cos (dec c0) * cos (dec c1) * cos (ra c1 - ra c0)
  = dot (sc2xyz c0) (sc2xyz c1).
Proof.
  rewrite cos_minus. unfold sc2xyz, dot, vx, vy, vz; simpl. ring.
Qed.

Lemma separation_numerator (c0 c1 : SkyCoord) :
  hypot (cos (dec c1) * sin (ra c1 - ra c0))
        (cos (dec c0) * sin (dec c1) - sin (dec c0) * cos (dec c1) * cos (ra c1 - ra c0))
  = norm (cross (sc2xyz c0) (sc2xyz c1)).
Proof.
  unfold hypot, norm. f_equal. rewrite cos_minus, sin_minus.
  unfold sc2xyz, cross, dot, vx, vy, vz; simpl.
  pose proof (sin2_cos2' (ra c0)). pose proof (sin2_cos2' (dec c0)).
  pose proof (sin2_cos2' (ra c1)). pose proof (sin2_cos2' (dec c1)).
  nsatz.
Qed.

Lemma lagrange (a b : vec) :
  dot (cross a b) (cross a b) + dot a b * dot a b = dot a a * dot b b.
Proof.
  destruct a as [[a1 a2] a3], b as [[b1 b2] b3].
  unfold cross, dot, vx, vy, vz; simpl. ring.
Qed.

Lemma dot_self_nonneg (v : vec) : 0 <= dot v v.
Proof. destruct v as [[a b] c]. unfold dot, vx, vy, vz; simpl. nra. Qed.

Lemma norm_sq (v : vec) : norm v * norm v = dot v v.
Proof. unfold norm. apply sqrt_sqrt. apply dot_self_nonneg. Qed.


(** ** Through spherical coordinates and back *)

Lemma cos_turns (a : R) (k : Z) : cos (a + 2 * PI * IZR k) = cos a.
Proof.
  destruct (Z_le_gt_dec 0 k) as [H|H].
  - rewrite <- (Z2Nat.id k H), <- INR_IZR_INZ.
    replace (a + 2 * PI * INR (Z.to_nat k)) with (a + 2 * INR (Z.to_nat k) * PI) by ring.
    apply cos_period.
  - rewrite <- (cos_period (a + 2 * PI * IZR k) (Z.to_nat (- k))).
    rewrite INR_IZR_INZ, Z2Nat.id by lia. rewrite opp_IZR. f_equal. ring.
Qed.

Lemma sin_turns (a : R) (k : Z) : sin (a + 2 * PI * IZR k) = sin a.
Proof.
  destruct (Z_le_gt_dec 0 k) as [H|H].
  - rewrite <- (Z2Nat.id k H), <- INR_IZR_INZ.
    replace (a + 2 * PI * INR (Z.to_nat k)) with (a + 2 * INR (Z.to_nat k) * PI) by ring.
    apply sin_period.
  - rewrite <- (sin_period (a + 2 * PI * IZR k) (Z.to_nat (- k))).
    rewrite INR_IZR_INZ, Z2Nat.id by lia. rewrite opp_IZR. f_equal. ring.
Qed.

Lemma wrap_at_turns (a w : R) : exists k : Z, wrap_at a w = a + 2 * PI * IZR k.
Proof.
  exists (- (Int_part ((a - w) / (2 * PI)) + 1))%Z.
  unfold wrap_at. rewrite opp_IZR, plus_IZR. simpl. ring.
Qed.

Lemma cos_wrap_at (a w : R) : cos (wrap_at a w) = cos a.
Proof. destruct (wrap_at_turns a w) as [k ->]. apply cos_turns. Qed.

Lemma sin_wrap_at (a w : R) : sin (wrap_at a w) = sin a.
Proof. destruct (wrap_at_turns a w) as [k ->]. apply sin_turns. Qed.

Lemma sqrt_one_plus_sq (t x : R) :
  0 < x -> (1 + t²) * (x * x) = 1 -> sqrt (1 + t²) = / x.
Proof.
  intros Hx H. apply sqrt_lem_1.
  - unfold Rsqr. nra.
  - left. apply Rinv_0_lt_compat. exact Hx.
  - apply Rmult_eq_reg_r with (x * x); [|nra].
    rewrite H. field. lra.
Qed.

(** On the unit circle [arctan2] inverts (cos, sin). *)
Lemma cos_sin_atan2 (y x : R) :
  x * x + y * y = 1 -> cos (atan2 y x) = x /\ sin (atan2 y x) = y.
Proof.
  intros U.
  destruct (Rlt_dec 0 x) as [Hx|Hx]; [|destruct (Rlt_dec x 0) as [Hx'|Hx']].
  - rewrite atan2_right by exact Hx. rewrite cos_atan, sin_atan.
    rewrite (sqrt_one_plus_sq (y / x) x Hx).
    + split; field; lra.
    + unfold Rsqr. field_simplify; [|lra]. rewrite <- U. field; lra.
  - assert (S : sqrt (1 + (y / x)²) = / (- x)).
    { apply sqrt_one_plus_sq; [lra|]. unfold Rsqr. field_simplify; [|lra].
      rewrite <- U. field; lra. }
    destruct (Rle_dec 0 y) as [Hy|Hy].
    + rewrite atan2_left_up by assumption.
      rewrite neg_cos, neg_sin, cos_atan, sin_atan, S. split; field; lra.
    + rewrite atan2_left_down by lra.
      replace (atan (y / x) - PI) with (atan (y / x) + PI + 2 * PI * IZR (-1)) by (simpl; ring).
      rewrite cos_turns, sin_turns.
      rewrite neg_cos, neg_sin, cos_atan, sin_atan, S. split; field; lra.
  - assert (x = 0) by lra. subst x.
    assert (Y : y = 1 \/ y = -1) by (assert ((y - 1) * (y + 1) = 0) by lra;
      destruct (Rmult_integral _ _ H); [left | right]; lra).
    destruct Y as [-> | ->].
    + rewrite atan2_up by lra. rewrite cos_PI2, sin_PI2. split; reflexivity.
    + rewrite atan2_down by lra. rewrite cos_neg, sin_neg, cos_PI2, sin_PI2. split; lra.
Qed.

(** Scaling both arguments by a positive factor leaves [arctan2] alone. *)
Lemma atan2_scale (k y x : R) : 0 < k -> atan2 (y * k) (x * k) = atan2 y x.
Proof.
  intros Hk.
  assert (D : x <> 0 -> y * k / (x * k) = y / x) by (intros; field; lra).
  destruct (Rlt_dec 0 x) as [Hx|Hx]; [|destruct (Rlt_dec x 0) as [Hx'|Hx']].
  - rewrite !atan2_right by nra. rewrite D by lra. reflexivity.
  - destruct (Rle_dec 0 y) as [Hy|Hy].
    + rewrite !atan2_left_up by nra. rewrite D by lra. reflexivity.
    + rewrite !atan2_left_down by nra. rewrite D by lra. reflexivity.
  - assert (x = 0) by lra. subst x. rewrite Rmult_0_l.
    destruct (Rlt_dec 0 y) as [Hy|Hy]; [|destruct (Rlt_dec y 0) as [Hy'|Hy']].
    + rewrite !atan2_up by nra. reflexivity.
    + rewrite !atan2_down by nra. reflexivity.
    + assert (y = 0) by lra. subst y. rewrite Rmult_0_l. reflexivity.
Qed.

Lemma hypot_nonneg (x y : R) : 0 <= hypot x y.
Proof. apply sqrt_pos. Qed.

Lemma hypot_sq (x y : R) : hypot x y * hypot x y = x * x + y * y.
Proof. unfold hypot. apply sqrt_sqrt. nra. Qed.

(** A unit vector survives the trip through spherical coordinates. *)
Lemma spherical_roundtrip (v : vec) :
  dot v v = 1 ->
  let '(d, lat, lon) := cartesian_to_spherical v in
  sc2xyz (SkyCoord_of lon lat) = v.
Proof.
  intros U. unfold cartesian_to_spherical, SkyCoord_of, sc2xyz. simpl ra. simpl dec.
  rewrite !cos_wrap_at, !sin_wrap_at.
  destruct v as [[x y] z]. unfold dot, vx, vy, vz in *; simpl in *.
  pose proof (hypot_sq x y) as S2. pose proof (hypot_nonneg x y) as S0.
  set (s := hypot x y) in *.
  destruct (cos_sin_atan2 z s) as [Cd Sd]; [lra|]. rewrite Cd, Sd.
  destruct (Req_dec_T s 0) as [Z|NZ].
  - rewrite Z in *. assert (x = 0) by nra. assert (y = 0) by nra. subst.
    rewrite !Rmult_0_l. reflexivity.
  - assert (Hs : 0 < s) by lra.
    rewrite <- (atan2_scale (/ s) y x) by (apply Rinv_0_lt_compat; exact Hs).
    destruct (cos_sin_atan2 (y * / s) (x * / s)) as [Cr Sr].
    { replace (x * / s * (x * / s) + y * / s * (y * / s))
        with ((x * x + y * y) * (/ s * / s)) by ring.
      rewrite <- S2. field. lra. }
    rewrite Cr, Sr. apply vec_eq; unfold vx, vy, vz; simpl; field; lra.
Qed.

(** ** Interpolation as a rotation *)

Lemma norm_nonneg (v : vec) : 0 <= norm v.
Proof. apply sqrt_pos. Qed.

Lemma norm_one_dot (n : vec) : norm n = 1 -> dot n n = 1.
Proof. intros H. rewrite <- norm_sq, H. ring. Qed.

Lemma normalize_some (v n : vec) :
  normalize v = Some n ->
  norm v <> 0 /\ n = vscale v (/ norm v) /\ dot n n = 1.
Proof.
  unfold normalize. destruct (Req_dec_T (norm v) 0) as [Z|NZ]; [discriminate|].
  intros E. inversion E; subst n. split; [exact NZ|]. split; [reflexivity|].
  pose proof (norm_sq v) as N2. pose proof (Rinv_r _ NZ) as NI.
  set (N := norm v) in *. set (iN := / N) in *.
  destruct v as [[a b] c]. unfold vscale, dot, vx, vy, vz in *; simpl in *.
  nsatz.
Qed.

Lemma normalize_defined (v : vec) :
  norm v <> 0 -> normalize v = Some (vscale v (/ norm v)).
Proof.
  intros H. unfold normalize.
  destruct (Req_dec_T (norm v) 0); [contradiction | reflexivity].
Qed.

Lemma normalize_zero (v : vec) : norm v = 0 -> normalize v = None.
Proof.
  intros H. unfold normalize.
  destruct (Req_dec_T (norm v) 0); [reflexivity | contradiction].
Qed.

(** [separation] is the angle whose cosine and sine are the dot product and
    the length of the cross product. *)
Lemma separation_atan2 (c0 c1 : SkyCoord) :
  separation c0 c1
    = atan2 (norm (cross (sc2xyz c0) (sc2xyz c1)))
            (dot (sc2xyz c0) (sc2xyz c1)).
Proof.
  unfold separation, angular_separation. cbv zeta.
  rewrite separation_numerator, separation_denominator. reflexivity.
Qed.

Lemma cos_sin_separation (c0 c1 : SkyCoord) :
  cos (separation c0 c1) = dot (sc2xyz c0) (sc2xyz c1) /\
  sin (separation c0 c1) = norm (cross (sc2xyz c0) (sc2xyz c1)).
Proof.
  rewrite separation_atan2. apply cos_sin_atan2.
  pose proof (lagrange (sc2xyz c0) (sc2xyz c1)) as L.
  rewrite !sc2xyz_unit in L. rewrite norm_sq. lra.
Qed.

(** What [spherical_interpolation] returns, as a point of the sphere. *)
Lemma interpolation_xyz (c0 c1 : SkyCoord) (t0 t1 t2 : R) :
  t1 - t0 <> 0 ->
  norm (cross (sc2xyz c0) (sc2xyz c1)) <> 0 ->
  exists c,
    spherical_interpolation c0 c1 t0 t1 t2 = Some c /\
    sc2xyz c
      = vector_rotate (sc2xyz c0)
          (vscale (cross (sc2xyz c0) (sc2xyz c1))
                  (/ norm (cross (sc2xyz c0) (sc2xyz c1))))
          (separation c0 c1 * ((t2 - t0) / (t1 - t0))).
Proof.
  intros Ht HN. unfold spherical_interpolation.
  destruct (Req_dec_T (t1 - t0) 0) as [Z|_]; [contradiction|].
  cbv zeta. rewrite (normalize_defined _ HN).
  destruct (normalize_some _ _ (normalize_defined _ HN)) as (_ & _ & Un).
  set (n := vscale _ _) in *. set (th := separation c0 c1 * _).
  pose proof (dot_rotate (sc2xyz c0) n th Un) as Ur.
  rewrite sc2xyz_unit in Ur.
  pose proof (spherical_roundtrip _ Ur) as RT.
  destruct (cartesian_to_spherical (vector_rotate (sc2xyz c0) n th))
    as [[d lat] lon].
  eexists. split; [reflexivity | exact RT].
Qed.

Lemma interpolation_some (c0 c1 c : SkyCoord) (t0 t1 t2 : R) :
  spherical_interpolation c0 c1 t0 t1 t2 = Some c ->
  t1 - t0 <> 0 /\ norm (cross (sc2xyz c0) (sc2xyz c1)) <> 0.
Proof.
  unfold spherical_interpolation.
  destruct (Req_dec_T (t1 - t0) 0) as [Z|NZ]; [discriminate|].
  cbv zeta. destruct (normalize _) as [n|] eqn:E; [|discriminate].
  intros _. split; [exact NZ|]. apply (normalize_some _ _ E).
Qed.







(** ** Rotation, coincident anchors, end points *)

Lemma atan2_right_half (y x : R) : 0 <= x -> - (PI / 2) <= atan2 y x <= PI / 2.
Proof.
  intros Hx. pose proof PI_RGT_0 as P.
  destruct (Rlt_dec 0 x) as [H|H].
  - rewrite atan2_right by exact H. pose proof (atan_bound (y / x)). lra.
  - assert (x = 0) by lra. subst x.
    destruct (Rlt_dec 0 y) as [Hy|Hy]; [|destruct (Rlt_dec y 0) as [Hy'|Hy']].
    + rewrite atan2_up by exact Hy. lra.
    + rewrite atan2_down by exact Hy'. lra.
    + assert (y = 0) by lra. subst y. rewrite atan2_origin. lra.
Qed.

(** The coordinates [spherical_interpolation] returns are normalised. *)
Lemma interpolation_normalised (c0 c1 c : SkyCoord) (t0 t1 t2 : R) :
  spherical_interpolation c0 c1 t0 t1 t2 = Some c ->
  0 <= ra c < 2 * PI /\ - (PI / 2) <= dec c <= PI / 2.
Proof.
  unfold spherical_interpolation.
  destruct (Req_dec_T (t1 - t0) 0) as [Z|NZ]; [discriminate|]. cbv zeta.
  destruct (normalize _) as [n|]; [|discriminate].
  unfold cartesian_to_spherical, SkyCoord_of. intros E. inversion E; subst c.
  simpl. split.
  - pose proof (wrap_at_range
      (wrap_at (atan2 (vy (vector_rotate (sc2xyz c0) n
                             (separation c0 c1 * ((t2 - t0) / (t1 - t0)))))
                      (vx (vector_rotate (sc2xyz c0) n
                             (separation c0 c1 * ((t2 - t0) / (t1 - t0))))))
               (2 * PI)) (2 * PI)). lra.
  - apply atan2_right_half. apply hypot_nonneg.
Qed.

(** Two angles of one turn with the same cosine and sine are equal. *)
Lemma angle_unique (a b : R) :
  0 <= a < 2 * PI -> 0 <= b < 2 * PI ->
  cos a = cos b -> sin a = sin b -> a = b.
Proof.
  intros Ha Hb C S. pose proof PI_RGT_0 as P.
  assert (upper : forall u, 0 <= u < 2 * PI -> 0 <= sin u -> 0 <= u <= PI).
  { intros u Hu Hs. destruct (Rle_dec u PI); [lra|].
    pose proof (sin_lt_0 u). lra. }
  assert (lower : forall u, 0 <= u < 2 * PI -> sin u < 0 -> PI < u).
  { intros u Hu Hs. destruct (Rlt_dec PI u); [lra|].
    pose proof (sin_ge_0 u). lra. }
  destruct (Rle_dec 0 (sin a)) as [Hs|Hs].
  - apply cos_inj; [apply upper; lra | apply upper; lra | exact C].
  - assert (PI < a) by (apply lower; lra).
    assert (PI < b) by (apply lower; lra).
    assert (E : 2 * PI - a = 2 * PI - b).
    { apply cos_inj; [lra | lra |].
      replace (2 * PI - a) with (- a + 2 * PI * IZR 1) by (simpl; ring).
      replace (2 * PI - b) with (- b + 2 * PI * IZR 1) by (simpl; ring).
      rewrite !cos_turns, !cos_neg. exact C. }
    lra.
Qed.

(** Normalised coordinates away from the poles are determined by the
    point of the sphere. *)
Lemma skycoord_unique (c c' : SkyCoord) :
  sc2xyz c = sc2xyz c' ->
  0 <= ra c < 2 * PI -> - (PI / 2) <= dec c <= PI / 2 ->
  0 <= ra c' < 2 * PI -> - (PI / 2) < dec c' < PI / 2 ->
  c = c'.
Proof.
  intros E Hr Hd Hr' Hd'. destruct c as [r d], c' as [r' d'].
  unfold sc2xyz in E. simpl in *. inversion E as [[E1 E2 E3]].
  assert (D : d = d') by (apply sin_inj; [lra | lra | exact E3]).
  subst d'. assert (Cd : 0 < cos d) by (apply cos_gt_0; lra).
  assert (r = r'); [|subst; reflexivity].
  apply angle_unique; try assumption.
  - apply Rmult_eq_reg_l with (cos d); lra.
  - apply Rmult_eq_reg_l with (cos d); lra.
Qed.

(** C8. For a unit axis, [vector_rotate] preserves the norm, is the
    identity for the angle zero, and is undone by the opposite angle. *)
Theorem vector_rotate_isometry (r n : vec) (th : R) :
  norm n = 1 ->
  norm (vector_rotate r n th) = norm r /\
  vector_rotate r n 0 = r /\
  vector_rotate (vector_rotate r n th) n (- th) = r.
Proof.
  intros Hn. apply norm_one_dot in Hn. split; [|split].
  - unfold norm. rewrite dot_rotate by exact Hn. reflexivity.
  - apply vector_rotate_zero.
  - apply rotate_back. exact Hn.
Qed.

(** The x axis turned a quarter about the z axis. *)
Lemma vector_rotate_isometry_witness :
  norm (0, 0, 1) = 1 /\
  (norm (vector_rotate (1, 0, 0) (0, 0, 1) (PI / 2)) = norm (1, 0, 0) /\
   vector_rotate (1, 0, 0) (0, 0, 1) 0 = (1, 0, 0) /\
   vector_rotate (vector_rotate (1, 0, 0) (0, 0, 1) (PI / 2)) (0, 0, 1)
     (- (PI / 2)) = (1, 0, 0)).
Proof.
  assert (H : norm (0, 0, 1) = 1).
  { unfold norm, dot, vx, vy, vz; simpl.
    replace (0 * 0 + 0 * 0 + 1 * 1) with 1 by ring. apply sqrt_1. }
  split; [exact H | apply vector_rotate_isometry; exact H].
Defined.

(** The test of [vector_rotate]: a quarter turn about z takes x to y. *)
Lemma test_vector_rotate :
  vector_rotate (1, 0, 0) (0, 0, 1) (PI / 2) = (0, 1, 0).
Proof.
  unfold vector_rotate. rewrite cos_neg, sin_neg, cos_PI2, sin_PI2.
  apply vec_eq; unfold vadd, vscale, cross, dot, vx, vy, vz; simpl; ring.
Qed.

Lemma interpolation_parallel (c0 c1 : SkyCoord) (t0 t1 t2 : R) :
  norm (cross (sc2xyz c0) (sc2xyz c1)) = 0 ->
  spherical_interpolation c0 c1 t0 t1 t2 = None.
Proof.
  intros H. unfold spherical_interpolation.
  destruct (Req_dec_T (t1 - t0) 0) as [Z|NZ]; [reflexivity|]. cbv zeta.
  rewrite (normalize_zero _ H). reflexivity.
Qed.









(** ** The box of a triplet *)

Lemma atan2_upper_half (y x : R) : 0 <= y -> 0 <= atan2 y x <= PI.
Proof.
  intros Hy. pose proof PI_RGT_0 as P.
  destruct (Rlt_dec 0 x) as [Hx|Hx]; [|destruct (Rlt_dec x 0) as [Hx'|Hx']].
  - rewrite atan2_right by exact Hx. pose proof (atan_bound (y / x)).
    destruct (Req_dec_T y 0) as [->|N].
    + unfold Rdiv. rewrite Rmult_0_l, atan_0. lra.
    + pose proof (atan_pos (y / x) (div_pos_pos y x Hx ltac:(lra))). lra.
  - rewrite atan2_left_up by assumption. pose proof (atan_bound (y / x)).
    destruct (Req_dec_T y 0) as [->|N].
    + unfold Rdiv. rewrite Rmult_0_l, atan_0. lra.
    + pose proof (atan_neg (y / x) (div_pos_neg y x Hx' ltac:(lra))). lra.
  - assert (x = 0) by lra. subst x.
    destruct (Req_dec_T y 0) as [->|N].
    + rewrite atan2_origin. lra.
    + rewrite atan2_up by lra. lra.
Qed.

Lemma separation_range (c0 c1 : SkyCoord) : 0 <= separation c0 c1 <= PI.
Proof. rewrite separation_atan2. apply atan2_upper_half. apply norm_nonneg. Qed.

Lemma sc2xyz_equator (r : R) : sc2xyz (mkSky r 0) = (cos r, sin r, 0).
Proof.
  unfold sc2xyz. simpl. rewrite cos_0, sin_0.
  apply vec_eq; unfold vx, vy, vz; simpl; ring.
Qed.

Lemma equator_cross (r0 r1 : R) :
  cross (cos r0, sin r0, 0) (cos r1, sin r1, 0) = (0, 0, sin (r1 - r0)).
Proof.
  rewrite sin_minus.
  apply vec_eq; unfold cross, vx, vy, vz; simpl; ring.
Qed.

Lemma norm_z (s : R) : 0 <= s -> norm (0, 0, s) = s.
Proof.
  intros H. unfold norm, dot, vx, vy, vz; simpl.
  replace (0 * 0 + 0 * 0 + s * s) with (s * s) by ring.
  apply sqrt_square. exact H.
Qed.

(** Along the equator the interpolation moves the longitude at a constant
    rate. *)
Lemma equator_interpolation (r0 r1 t0 t1 t2 : R) :
  t1 - t0 <> 0 -> 0 < r1 - r0 < PI ->
  exists c,
    spherical_interpolation (mkSky r0 0) (mkSky r1 0) t0 t1 t2 = Some c /\
    sc2xyz c = (cos (r0 + (r1 - r0) * ((t2 - t0) / (t1 - t0))),
                sin (r0 + (r1 - r0) * ((t2 - t0) / (t1 - t0))), 0).
Proof.
  intros Ht Hr.
  assert (S : 0 < sin (r1 - r0)) by (apply sin_gt_0; lra).
  assert (N : norm (cross (sc2xyz (mkSky r0 0)) (sc2xyz (mkSky r1 0)))
              = sin (r1 - r0)).
  { rewrite !sc2xyz_equator, equator_cross. apply norm_z. lra. }
  assert (W : separation (mkSky r0 0) (mkSky r1 0) = r1 - r0).
  { destruct (cos_sin_separation (mkSky r0 0) (mkSky r1 0)) as [C _].
    pose proof (separation_range (mkSky r0 0) (mkSky r1 0)).
    apply cos_inj; [assumption | lra |].
    rewrite C, !sc2xyz_equator, cos_minus.
    unfold dot, vx, vy, vz; simpl. ring. }
  destruct (interpolation_xyz (mkSky r0 0) (mkSky r1 0) t0 t1 t2 Ht)
    as (c & E & X); [rewrite N; lra|].
  exists c. split; [exact E|]. rewrite X, N, W, !sc2xyz_equator, equator_cross.
  set (th := (r1 - r0) * ((t2 - t0) / (t1 - t0))).
  unfold vector_rotate. rewrite cos_neg, sin_neg, cos_plus, sin_plus.
  apply vec_eq; unfold vadd, vscale, cross, dot, vx, vy, vz; simpl;
    field; lra.
Qed.



Lemma sqrt3_bounds : 1 < sqrt 3 < 2.
Proof.
  pose proof (sqrt_pos 3). pose proof (sqrt_sqrt 3 ltac:(lra)). nra.
Qed.







(** ** The half test and argsort *)

Lemma Rltb_iff (x y : R) : Rltb x y = true <-> x < y.
Proof.
  unfold Rltb. destruct (Rlt_dec x y); split; intros; try assumption;
    try reflexivity; try discriminate; contradiction.
Qed.

Lemma Rltb_false_iff (x y : R) : Rltb x y = false <-> y <= x.
Proof.
  unfold Rltb. destruct (Rlt_dec x y); split; intros; try reflexivity;
    try discriminate; lra.
Qed.

Lemma sort2_min_max (a b : R) : sort2 (a, b) = (Rmin a b, Rmax a b).
Proof.
  unfold sort2. simpl. destruct (Rltb b a) eqn:E.
  - apply Rltb_iff in E. rewrite Rmin_right, Rmax_left by lra. reflexivity.
  - apply Rltb_false_iff in E. rewrite Rmin_left, Rmax_right by lra.
    reflexivity.
Qed.

(** The half test is the specification's: between the wrapped corner
    angles. *)
Lemma half_test_between (c ci cj point : SkyCoord) :
  half_test c ci cj point = true <-> between_wrapped c ci cj point.
Proof.
  unfold half_test, between_wrapped, min2, Rgtb. cbv zeta. cbn [fst snd].
  rewrite sort2_min_max. cbn [fst snd].
  set (w := Rmin _ _). set (lo := Rmin _ _). set (hi := Rmax _ _).
  set (t := wrap_at _ w).
  rewrite negb_true_iff, orb_false_iff, !Rltb_false_iff. tauto.
Qed.

Lemma position_angle_range (c0 c1 : SkyCoord) :
  0 <= position_angle c0 c1 < 2 * PI.
Proof. apply angle_of_range. Qed.

Lemma wrap_at_above (a w : R) :
  0 <= w -> w <= a -> a < 2 * PI -> wrap_at a w = a - 2 * PI.
Proof.
  intros. rewrite (wrap_at_unique a w (-1)); simpl; lra.
Qed.

Lemma wrap_at_below (a w : R) :
  0 <= a -> a < w -> w < 2 * PI -> wrap_at a w = a.
Proof.
  intros. rewrite (wrap_at_unique a w 0); simpl; lra.
Qed.

(** In effect the half test compares the three position angles as they
    are, in [[0, 2 PI)]: the wrapping moves nothing past anything else. *)
Lemma half_test_raw (c ci cj point : SkyCoord) :
  half_test c ci cj point = true <->
  Rmin (position_angle c ci) (position_angle c cj)
    <= position_angle c point
    <= Rmax (position_angle c ci) (position_angle c cj).
Proof.
  rewrite half_test_between. unfold between_wrapped. cbv zeta.
  pose proof (position_angle_range c ci) as R1.
  pose proof (position_angle_range c cj) as R2.
  pose proof (position_angle_range c point) as RT.
  set (p1 := position_angle c ci) in *. set (p2 := position_angle c cj) in *.
  set (pt := position_angle c point) in *.
  pose proof (Rmin_l p1 p2) as L1. pose proof (Rmin_r p1 p2) as L2.
  assert (L0 : 0 <= Rmin p1 p2) by (apply Rmin_glb; lra).
  set (w := Rmin p1 p2) in *.
  rewrite (wrap_at_above p1 w), (wrap_at_above p2 w) by lra.
  assert (Mn : Rmin (p1 - 2 * PI) (p2 - 2 * PI) = w - 2 * PI).
  { unfold w, Rmin. destruct (Rle_dec p1 p2), (Rle_dec (p1 - 2 * PI) (p2 - 2 * PI)); lra. }
  assert (Mx : Rmax (p1 - 2 * PI) (p2 - 2 * PI) = Rmax p1 p2 - 2 * PI).
  { unfold Rmax. destruct (Rle_dec p1 p2), (Rle_dec (p1 - 2 * PI) (p2 - 2 * PI)); lra. }
  rewrite Mn, Mx.
  assert (Hh : Rmax p1 p2 < 2 * PI) by (apply Rmax_lub_lt; lra).
  destruct (Rlt_dec pt w) as [B|A].
  - rewrite (wrap_at_below pt w) by lra. lra.
  - rewrite (wrap_at_above pt w) by lra. lra.
Qed.

Lemma half_test_outside (c ci cj point : SkyCoord) :
  position_angle c point < Rmin (position_angle c ci) (position_angle c cj)
  \/ Rmax (position_angle c ci) (position_angle c cj) < position_angle c point ->
  half_test c ci cj point = false.
Proof.
  intros H. destruct (half_test c ci cj point) eqn:E; [|reflexivity].
  apply half_test_raw in E. lra.
Qed.

(** [np.argsort] of three numbers. *)
Lemma argsort3 (a b c : R) :
  exists i j k,
    argsort [a; b; c] = [i; j; k] /\
    Permutation [i; j; k] [0; 1; 2]%nat /\
    nth i [a; b; c] 0 <= nth j [a; b; c] 0 <= nth k [a; b; c] 0.
Proof.
  unfold argsort. simpl.
  destruct (Rltb b a) eqn:BA; simpl;
    [apply Rltb_iff in BA | apply Rltb_false_iff in BA].
  - destruct (Rltb c b) eqn:CB; simpl;
      [apply Rltb_iff in CB | apply Rltb_false_iff in CB].
    + exists 2%nat, 1%nat, 0%nat. split; [reflexivity|]. split; [|simpl; lra].
      apply Permutation_rev.
    + destruct (Rltb c a) eqn:CA; simpl;
        [apply Rltb_iff in CA | apply Rltb_false_iff in CA].
      * exists 1%nat, 2%nat, 0%nat. split; [reflexivity|]. split; [|simpl; lra].
        apply Permutation_sym. apply (Permutation_cons_app [1; 2]%nat []).
        apply Permutation_refl.
      * exists 1%nat, 0%nat, 2%nat. split; [reflexivity|]. split; [|simpl; lra].
        apply perm_swap.
  - destruct (Rltb c a) eqn:CA; simpl;
      [apply Rltb_iff in CA | apply Rltb_false_iff in CA].
    + exists 2%nat, 0%nat, 1%nat. split; [reflexivity|]. split; [|simpl; lra].
      apply (Permutation_cons_app [0; 1]%nat []). apply Permutation_refl.
    + destruct (Rltb c b) eqn:CB; simpl;
        [apply Rltb_iff in CB | apply Rltb_false_iff in CB].
      * exists 0%nat, 2%nat, 1%nat. split; [reflexivity|]. split; [|simpl; lra].
        apply perm_skip. apply perm_swap.
      * exists 0%nat, 1%nat, 2%nat. split; [reflexivity|]. split; [|simpl; lra].
        apply Permutation_refl.
Qed.

Lemma argsort3_order (a b c : R) (i j k : nat) :
  nth i [a; b; c] 0 < nth j [a; b; c] 0 ->
  nth j [a; b; c] 0 < nth k [a; b; c] 0 ->
  Permutation [i; j; k] [0; 1; 2]%nat ->
  argsort [a; b; c] = [i; j; k].
Proof.
  intros H1 H2 P.
  destruct (argsort3 a b c) as (i' & j' & k' & E & P' & O).
  rewrite E.
  assert (Hi : (i < 3)%nat).
  { assert (In i [0; 1; 2]%nat) by (eapply Permutation_in; [exact P | left; reflexivity]).
    simpl in H. lia. }
  assert (Hj : (j < 3)%nat).
  { assert (In j [0; 1; 2]%nat) by (eapply Permutation_in; [exact P | right; left; reflexivity]).
    simpl in H. lia. }
  assert (Hk : (k < 3)%nat).
  { assert (In k [0; 1; 2]%nat) by (eapply Permutation_in; [exact P | right; right; left; reflexivity]).
    simpl in H. lia. }
  assert (Hi' : In i' [0; 1; 2]%nat) by (eapply Permutation_in; [exact P' | left; reflexivity]).
  assert (Hj' : In j' [0; 1; 2]%nat) by (eapply Permutation_in; [exact P' | right; left; reflexivity]).
  assert (Hk' : In k' [0; 1; 2]%nat) by (eapply Permutation_in; [exact P' | right; right; left; reflexivity]).
  pose proof (Permutation_NoDup (Permutation_sym P') ltac:(repeat constructor; simpl; intuition lia)) as ND'.
  pose proof (Permutation_NoDup (Permutation_sym P) ltac:(repeat constructor; simpl; intuition lia)) as ND.
  inversion ND as [|? ? N1 ND1]; subst. inversion ND1 as [|? ? N2 ND2]; subst.
  inversion ND' as [|? ? N1' ND1']; subst. inversion ND1' as [|? ? N2' ND2']; subst.
  simpl in N1, N2, N1', N2', Hi', Hj', Hk'.
  destruct i as [|[|[|i]]]; try lia; destruct j as [|[|[|j]]]; try lia;
    destruct k as [|[|[|k]]]; try lia; simpl in H1, H2;
    try (exfalso; apply N1; tauto); try (exfalso; apply N2; tauto);
    destruct Hi' as [<-|[<-|[<-|[]]]]; destruct Hj' as [<-|[<-|[<-|[]]]];
    destruct Hk' as [<-|[<-|[<-|[]]]]; simpl in O;
    try (exfalso; apply N1'; tauto); try (exfalso; apply N2'; tauto);
    try reflexivity; exfalso; lra.
Qed.

(** ** The footprint of the test, in two corner orders *)

Lemma interior_test_eval (point c0 c1 c2 c3 : SkyCoord) (i j k : nat) :
  argsort [separation c0 c1; separation c0 c2; separation c0 c3] = [i; j; k] ->
  interior_test point [c0; c1; c2; c3]
    = Some (half_test c0 (corner [c0; c1; c2; c3] (S i))
              (corner [c0; c1; c2; c3] (S j)) point
            && half_test (corner [c0; c1; c2; c3] (S k))
                 (corner [c0; c1; c2; c3] (S i))
                 (corner [c0; c1; c2; c3] (S j)) point).
Proof.
  intros E. unfold interior_test. cbn [map]. rewrite E. cbn [map].
  destruct (half_test c0 _ _ point); cbn [negb andb]; [|reflexivity].
  destruct (half_test _ _ _ point); reflexivity.
Qed.

Lemma separation_eq (c0 c1 : SkyCoord) :
  separation c0 c1
    = atan2 (hypot (cos (dec c1) * sin (ra c1 - ra c0))
                   (cos (dec c0) * sin (dec c1)
                    - sin (dec c0) * cos (dec c1) * cos (ra c1 - ra c0)))
            (sin (dec c0) * sin (dec c1)
             + cos (dec c0) * cos (dec c1) * cos (ra c1 - ra c0)).
Proof. reflexivity. Qed.

Lemma position_angle_eq (c0 c1 : SkyCoord) :
  position_angle c0 c1
    = angle_of (sin (ra c1 - ra c0) * cos (dec c1))
               (sin (dec c1) * cos (dec c0)
                - cos (dec c1) * sin (dec c0) * cos (ra c1 - ra c0)).
Proof. reflexivity. Qed.

(** Separations with a positive cosine compare as their tangents do. *)
Lemma atan2_hypot_lt (a1 b1 x1 a2 b2 x2 : R) :
  0 < x1 -> 0 < x2 ->
  (a1 * a1 + b1 * b1) * (x2 * x2) < (a2 * a2 + b2 * b2) * (x1 * x1) ->
  atan2 (hypot a1 b1) x1 < atan2 (hypot a2 b2) x2.
Proof.
  intros H1 H2 H. rewrite !atan2_right by assumption.
  apply atan_increasing.
  pose proof (hypot_nonneg a1 b1) as N1. pose proof (hypot_nonneg a2 b2) as N2.
  pose proof (hypot_sq a1 b1) as S1. pose proof (hypot_sq a2 b2) as S2.
  set (y1 := hypot a1 b1) in *. set (y2 := hypot a2 b2) in *.
  assert (L : y1 * x2 < y2 * x1).
  { destruct (Rlt_dec (y1 * x2) (y2 * x1)) as [?|G]; [assumption|].
    exfalso. assert (G' : y2 * x1 <= y1 * x2) by lra.
    assert (0 <= y2 * x1) by nra.
    assert ((y2 * x1) * (y2 * x1) <= (y1 * x2) * (y1 * x2)) by nra.
    nra. }
  apply Rmult_lt_reg_r with (x1 * x2); [nra|].
  replace (y1 / x1 * (x1 * x2)) with (y1 * x2) by (field; lra).
  replace (y2 / x2 * (x1 * x2)) with (y2 * x1) by (field; lra).
  exact L.
Qed.

Ltac trig0 :=
  repeat first
    [ rewrite Rminus_0_r | rewrite Rminus_0_l | rewrite Rminus_diag
    | rewrite sin_0 | rewrite cos_0 | rewrite sin_neg | rewrite cos_neg ].

Section Footprint.

Variables h d : R.
Hypothesis d_pos : 0 < d.
Hypothesis d_lt_h : d < h.
Hypothesis h_small : h < PI / 2.

Local Abbreviation A := (mkSky 0 0).
Local Abbreviation B := (mkSky h 0).
Local Abbreviation C := (mkSky h d).
Local Abbreviation D := (mkSky 0 d).
Local Abbreviation P := (mkSky (h / 2) (d / 2)).

Lemma footprint_trig :
  0 < sin d /\ 0 < cos d /\ 0 < sin h /\ 0 < cos h /\
  sin d < sin h /\ cos h < cos d /\
  0 < sin (h / 2) /\ 1 / 2 < cos (h / 2) /\
  0 < sin (d / 2) /\ 0 < cos (d / 2).
Proof.
  pose proof PI_RGT_0 as Pi.
  repeat split.
  - apply sin_gt_0; lra.
  - apply cos_gt_0; lra.
  - apply sin_gt_0; lra.
  - apply cos_gt_0; lra.
  - apply sin_increasing_1; lra.
  - apply cos_decreasing_1; lra.
  - apply sin_gt_0; lra.
  - rewrite <- cos_PI3. apply cos_decreasing_1; lra.
  - apply sin_gt_0; lra.
  - apply cos_gt_0; lra.
Qed.

Lemma sep_A_B : separation A B = atan2 (hypot (sin h) 0) (cos h).
Proof.
  rewrite separation_eq. cbn [ra dec]. trig0.
  f_equal; [f_equal|]; ring.
Qed.

Lemma sep_A_C : separation A C = atan2 (hypot (cos d * sin h) (sin d)) (cos d * cos h).
Proof.
  rewrite separation_eq. cbn [ra dec]. trig0.
  f_equal; [f_equal|]; ring.
Qed.

Lemma sep_A_D : separation A D = atan2 (hypot 0 (sin d)) (cos d).
Proof.
  rewrite separation_eq. cbn [ra dec]. trig0.
  f_equal; [f_equal|]; ring.
Qed.

Lemma sep_B_C : separation B C = atan2 (hypot 0 (sin d)) (cos d).
Proof.
  rewrite separation_eq. cbn [ra dec]. trig0.
  f_equal; [f_equal|]; ring.
Qed.

Lemma sep_B_D : separation B D = atan2 (hypot (- (cos d * sin h)) (sin d)) (cos d * cos h).
Proof.
  rewrite separation_eq. cbn [ra dec]. trig0.
  f_equal; [f_equal|]; ring.
Qed.

Lemma sep_B_A : separation B A = atan2 (hypot (- sin h) 0) (cos h).
Proof.
  rewrite separation_eq. cbn [ra dec]. trig0.
  f_equal; [f_equal|]; ring.
Qed.

(** From the first corner the far corner is the opposite one. *)
Lemma footprint_argsort :
  argsort [separation A B; separation A C; separation A D] = [2; 0; 1]%nat.
Proof.
  destruct footprint_trig as (Sd & Cd & Sh & Ch & Sdh & Chd & _).
  apply argsort3_order; cbn [nth].
  - rewrite sep_A_D, sep_A_B. apply atan2_hypot_lt; try assumption.
    assert (0 < sin d * cos h) by nra.
    assert (sin d * cos h < sin h * cos d) by nra.
    assert ((sin d * cos h) * (sin d * cos h)
            < (sin h * cos d) * (sin h * cos d)) by nra.
    lra.
  - rewrite sep_A_B, sep_A_C. apply atan2_hypot_lt; [assumption | nra |].
    assert (0 < sin d * cos h) by nra.
    assert (0 < (sin d * cos h) * (sin d * cos h)) by nra.
    lra.
  - apply (Permutation_cons_app [0; 1]%nat []). apply Permutation_refl.
Qed.

Lemma footprint_relabelled_argsort :
  argsort [separation B C; separation B D; separation B A] = [0; 2; 1]%nat.
Proof.
  destruct footprint_trig as (Sd & Cd & Sh & Ch & Sdh & Chd & _).
  apply argsort3_order; cbn [nth].
  - rewrite sep_B_C, sep_B_A. apply atan2_hypot_lt; try assumption.
    assert (0 < sin d * cos h) by nra.
    assert (sin d * cos h < sin h * cos d) by nra.
    assert ((sin d * cos h) * (sin d * cos h)
            < (sin h * cos d) * (sin h * cos d)) by nra.
    lra.
  - rewrite sep_B_A, sep_B_D. apply atan2_hypot_lt; [assumption | nra |].
    assert (0 < sin d * cos h) by nra.
    assert (0 < (sin d * cos h) * (sin d * cos h)) by nra.
    lra.
  - apply perm_skip. apply perm_swap.
Qed.

Lemma pa_A_D : position_angle A D = 0.
Proof.
  destruct footprint_trig as (Sd & _).
  rewrite position_angle_eq. cbn [ra dec]. trig0.
  replace (0 * cos d) with 0 by ring.
  apply angle_north. lra.
Qed.

Lemma pa_A_B : position_angle A B = PI / 2.
Proof.
  destruct footprint_trig as (_ & _ & Sh & _).
  rewrite position_angle_eq. cbn [ra dec]. trig0.
  replace (0 * 1 - 1 * 0 * cos h) with 0 by ring.
  apply angle_east. lra.
Qed.

Lemma pa_A_P : 0 < position_angle A P < PI / 2.
Proof.
  destruct footprint_trig as (_ & _ & _ & _ & _ & _ & Sp & Cp & Sq & Cq).
  rewrite position_angle_eq. cbn [ra dec]. trig0.
  apply angle_ne; nra.
Qed.

Lemma pa_C_D : 3 * (PI / 2) < position_angle C D < 2 * PI.
Proof.
  destruct footprint_trig as (Sd & Cd & Sh & Ch & _).
  assert (cos h < 1).
  { pose proof (sin2_cos2' h). nra. }
  rewrite position_angle_eq. cbn [ra dec]. trig0.
  apply angle_nw; [|nra].
  assert (0 < sin d * cos d * (1 - cos h)) by (apply Rmult_lt_0_compat; nra).
  lra.
Qed.

Lemma pa_C_B : position_angle C B = PI.
Proof.
  destruct footprint_trig as (Sd & _).
  rewrite position_angle_eq. cbn [ra dec]. trig0.
  replace (0 * 1) with 0 by ring.
  apply angle_south. lra.
Qed.

Lemma pa_C_P : PI < position_angle C P < 3 * (PI / 2).
Proof.
  destruct footprint_trig as (_ & _ & _ & _ & _ & _ & Sp & Cp & Sq & Cq).
  rewrite position_angle_eq. cbn [ra dec].
  replace (h / 2 - h) with (- (h / 2)) by field.
  assert (Sd2 : sin d = 2 * sin (d / 2) * cos (d / 2))
    by (rewrite <- sin_2a; f_equal; field).
  assert (Cd2 : cos d = cos (d / 2) * cos (d / 2) - sin (d / 2) * sin (d / 2))
    by (rewrite <- cos_2a; f_equal; field).
  rewrite Sd2, Cd2. trig0.
  pose proof (sin2_cos2' (d / 2)) as U.
  set (sq := sin (d / 2)) in *. set (cq := cos (d / 2)) in *.
  set (sp := sin (h / 2)) in *. set (cp := cos (h / 2)) in *.
  apply angle_sw; [|nra].
  replace (sq * (cq * cq - sq * sq) - cq * (2 * sq * cq) * cp)
    with (sq * (cq * cq * (1 - 2 * cp) - sq * sq)) by ring.
  assert (Q2 : 0 < cq * cq) by (apply Rmult_lt_0_compat; lra).
  assert (X : cq * cq * (1 - 2 * cp) - sq * sq < 0) by nra.
  nra.
Qed.

Lemma pa_B_C : position_angle B C = 0.
Proof.
  destruct footprint_trig as (Sd & _).
  rewrite position_angle_eq. cbn [ra dec]. trig0.
  replace (0 * cos d) with 0 by ring.
  apply angle_north. lra.
Qed.

Lemma pa_B_A : position_angle B A = 3 * (PI / 2).
Proof.
  destruct footprint_trig as (_ & _ & Sh & _).
  rewrite position_angle_eq. cbn [ra dec]. trig0.
  replace (0 * 1 - 1 * 0 * cos h) with 0 by ring.
  apply angle_west. lra.
Qed.

Lemma pa_B_P : 3 * (PI / 2) < position_angle B P < 2 * PI.
Proof.
  destruct footprint_trig as (_ & _ & _ & _ & _ & _ & Sp & Cp & Sq & Cq).
  rewrite position_angle_eq. cbn [ra dec].
  replace (h / 2 - h) with (- (h / 2)) by field. trig0.
  apply angle_nw; nra.
Qed.

(** The footprint, its corners given from the corner at the origin, holds
    its centre; given from the next corner, it does not. *)
Lemma footprint_order_matters :
  interior_test (centre h d) (footprint h d) = Some true /\
  interior_test (centre h d) (footprint_relabelled h d) = Some false.
Proof.
  pose proof PI_RGT_0 as Pi. split.
  - unfold footprint, centre.
    rewrite (interior_test_eval P A B C D _ _ _ footprint_argsort).
    cbn [corner nth].
    assert (H1 : half_test A D B P = true).
    { apply half_test_raw. rewrite pa_A_D, pa_A_B. pose proof pa_A_P.
      rewrite Rmin_left, Rmax_right by lra. lra. }
    assert (H2 : half_test C D B P = true).
    { apply half_test_raw. rewrite pa_C_B.
      pose proof pa_C_D. pose proof pa_C_P.
      rewrite Rmin_right, Rmax_left by lra. lra. }
    rewrite H1, H2. reflexivity.
  - unfold footprint_relabelled, centre.
    rewrite (interior_test_eval P B C D A _ _ _ footprint_relabelled_argsort).
    cbn [corner nth].
    assert (H1 : half_test B C A P = false).
    { apply half_test_outside. right. rewrite pa_B_C, pa_B_A.
      pose proof pa_B_P. rewrite Rmax_right by lra. lra. }
    rewrite H1. reflexivity.
Qed.

End Footprint.

(** C3. The footprint of [test_interior_test] with its interior point:
    in the test's first corner order [interior_test] answers [True], and in
    its second order, the same footprint named from the next corner,
    [False]. *)
Theorem interior_test_depends_on_order :
  interior_test (centre hourangle degree) (footprint hourangle degree)
    = Some true /\
  interior_test (centre hourangle degree)
    (footprint_relabelled hourangle degree) = Some false.
Proof.
  pose proof PI_RGT_0 as Pi.
  apply footprint_order_matters; unfold hourangle, degree; lra.
Qed.

(** ** The diagonal *)

(** C2, amended. For four corners [interior_test] always answers.  Its
    diagonal runs from the first corner to a corner [k] farthest from the
    first corner (the corners [i], [j], [k] are the other three in
    ascending order of their separation from the first), and the answer is
    [True] exactly when, seen from the first corner and seen from corner
    [k], the point's wrapped position angle lies between the wrapped
    position angles of the corners [i] and [j], the branch cut at the
    smaller of the two. *)
Theorem interior_test_diagonal (point c0 c1 c2 c3 : SkyCoord) :
  exists i j k : nat,
    Permutation [i; j; k] [1; 2; 3]%nat /\
    separation c0 (corner [c0; c1; c2; c3] i)
      <= separation c0 (corner [c0; c1; c2; c3] j)
      <= separation c0 (corner [c0; c1; c2; c3] k) /\
    exists b : bool,
      interior_test point [c0; c1; c2; c3] = Some b /\
      (b = true <->
       between_wrapped c0 (corner [c0; c1; c2; c3] i)
         (corner [c0; c1; c2; c3] j) point /\
       between_wrapped (corner [c0; c1; c2; c3] k)
         (corner [c0; c1; c2; c3] i) (corner [c0; c1; c2; c3] j) point).
Proof.
  destruct (argsort3 (separation c0 c1) (separation c0 c2) (separation c0 c3))
    as (i & j & k & E & P & O).
  exists (S i), (S j), (S k). split; [|split].
  - exact (Permutation_map S P).
  - assert (M : forall n, In n [0; 1; 2]%nat ->
              separation c0 (corner [c0; c1; c2; c3] (S n))
              = nth n [separation c0 c1; separation c0 c2; separation c0 c3] 0).
    { intros n [<- | [<- | [<- | []]]]; reflexivity. }
    rewrite !M; [exact O | | |];
      (eapply Permutation_in; [exact P|]); simpl; tauto.
  - eexists. split; [apply interior_test_eval; exact E|].
    rewrite andb_true_iff, !half_test_between. tauto.
Qed.

Lemma atan2_acute (y x : R) : 0 < x -> atan2 y x < PI / 2.
Proof.
  intros H. rewrite atan2_right by exact H. apply atan_bound.
Qed.

Lemma not_farthest (corners : list SkyCoord) (p q : nat * nat) :
  In q corner_pairs ->
  pair_separation corners p < pair_separation corners q ->
  is_farthest corners p = false.
Proof.
  intros I H. unfold is_farthest.
  destruct (forallb _ corner_pairs) eqn:E; [|reflexivity].
  rewrite forallb_forall in E. specialize (E q I).
  apply negb_true_iff, Rltb_false_iff in E. lra.
Qed.

Lemma farthest (corners : list SkyCoord) (p : nat * nat) :
  (forall q, In q corner_pairs ->
     pair_separation corners q <= pair_separation corners p) ->
  is_farthest corners p = true.
Proof.
  intros H. unfold is_farthest. apply forallb_forall. intros q I.
  apply negb_true_iff, Rltb_false_iff. apply H. exact I.
Qed.

Ltac trigv :=
  repeat first
    [ rewrite Rminus_0_r | rewrite Rminus_0_l | rewrite Rminus_diag
    | rewrite sin_0 | rewrite cos_0 | rewrite sin_neg | rewrite cos_neg
    | rewrite sin_PI6 | rewrite cos_PI6 | rewrite sin_PI3 | rewrite cos_PI3
    | rewrite sin_PI2 | rewrite cos_PI2 ].

Ltac angles :=
  try replace (PI / 2 - PI / 6) with (PI / 3) by field;
  try replace (PI / 3 - PI / 6) with (PI / 6) by field;
  try replace (PI / 6 - PI / 2) with (- (PI / 3)) by field;
  try replace (PI / 3 - PI / 2) with (- (PI / 6)) by field.

Ltac kite_sep c0 c1 :=
  rewrite (separation_eq c0 c1); cbn [ra dec]; angles; trigv.

Ltac kite_pa c0 c1 :=
  rewrite (position_angle_eq c0 c1); cbn [ra dec]; angles; trigv.

Section Kite.

Local Abbreviation K0 := (mkSky (PI / 6) (PI / 6)).
Local Abbreviation K1 := (mkSky (PI / 2) 0).
Local Abbreviation K2 := (mkSky (PI / 6) (- (PI / 6))).
Local Abbreviation K3 := (mkSky 0 0).
Local Abbreviation T := (mkSky (PI / 3) 0).

Lemma sqrt3_sq : sqrt 3 * sqrt 3 = 3.
Proof. apply sqrt_sqrt. lra. Qed.

Lemma kite_argsort :
  argsort [separation K0 K1; separation K0 K2; separation K0 K3]
    = [2; 1; 0]%nat.
Proof.
  pose proof sqrt3_bounds as Q. pose proof sqrt3_sq as Q2.
  apply argsort3_order; cbn [nth].
  - kite_sep (mkSky (PI / 6) (PI / 6)) (mkSky 0 0).
    kite_sep (mkSky (PI / 6) (PI / 6)) (mkSky (PI / 6) (- (PI / 6))).
    apply atan2_hypot_lt; nra.
  -
    kite_sep (mkSky (PI / 6) (PI / 6)) (mkSky (PI / 6) (- (PI / 6))).
    kite_sep (mkSky (PI / 6) (PI / 6)) (mkSky (PI / 2) 0).
    apply atan2_hypot_lt; nra.
  - apply Permutation_rev.
Qed.

Lemma kite_code_half : half_test K0 K3 K2 T = false.
Proof.
  pose proof sqrt3_bounds as Q. pose proof PI_RGT_0 as Pi.
  apply half_test_outside. left.
  assert (P3 : PI < position_angle K0 K3 < 3 * (PI / 2)).
  { kite_pa (mkSky (PI / 6) (PI / 6)) (mkSky 0 0).
    apply angle_sw; nra. }
  assert (P2 : position_angle K0 K2 = PI).
  {
    kite_pa (mkSky (PI / 6) (PI / 6)) (mkSky (PI / 6) (- (PI / 6))).
    replace (0 * (sqrt 3 / 2)) with 0 by ring. apply angle_south. nra. }
  assert (PT : PI / 2 < position_angle K0 T < PI).
  { kite_pa (mkSky (PI / 6) (PI / 6)) (mkSky (PI / 3) 0).
    apply angle_se; nra. }
  rewrite P2, Rmin_right by lra. lra.
Qed.

Lemma kite_code : interior_test T [K0; K1; K2; K3] = Some false.
Proof.
  rewrite (interior_test_eval T K0 K1 K2 K3 _ _ _ kite_argsort).
  cbn [corner nth]. rewrite kite_code_half. reflexivity.
Qed.

Lemma kite_long_diagonal : separation K1 K3 = PI / 2.
Proof.
  kite_sep (mkSky (PI / 2) 0) (mkSky 0 0).
  replace (0 * 0 + 1 * 1 * 0) with 0 by ring.
  apply atan2_up. apply sqrt_lt_R0. nra.
Qed.

Lemma kite_farthest_pair : farthest_pair [K0; K1; K2; K3] = Some (1, 3)%nat.
Proof.
  pose proof sqrt3_bounds as Q. pose proof PI_RGT_0 as Pi.
  assert (S01 : separation K0 K1 < PI / 2).
  { kite_sep (mkSky (PI / 6) (PI / 6)) (mkSky (PI / 2) 0).
    apply atan2_acute. nra. }
  assert (S02 : separation K0 K2 < PI / 2).
  {
    kite_sep (mkSky (PI / 6) (PI / 6)) (mkSky (PI / 6) (- (PI / 6))).
    apply atan2_acute. nra. }
  assert (S03 : separation K0 K3 < PI / 2).
  { kite_sep (mkSky (PI / 6) (PI / 6)) (mkSky 0 0).
    apply atan2_acute. nra. }
  assert (S12 : separation K1 K2 < PI / 2).
  { kite_sep (mkSky (PI / 2) 0) (mkSky (PI / 6) (- (PI / 6))).
    apply atan2_acute. nra. }
  assert (S23 : separation K2 K3 < PI / 2).
  { kite_sep (mkSky (PI / 6) (- (PI / 6))) (mkSky 0 0).
    apply atan2_acute. nra. }
  pose proof kite_long_diagonal as S13.
  assert (I13 : In (1, 3)%nat corner_pairs) by (simpl; tauto).
  unfold farthest_pair, corner_pairs. cbn [find].
  rewrite (not_farthest _ (0, 1)%nat (1, 3)%nat I13)
    by (unfold pair_separation; cbn [corner nth fst snd]; lra).
  rewrite (not_farthest _ (0, 2)%nat (1, 3)%nat I13)
    by (unfold pair_separation; cbn [corner nth fst snd]; lra).
  rewrite (not_farthest _ (0, 3)%nat (1, 3)%nat I13)
    by (unfold pair_separation; cbn [corner nth fst snd]; lra).
  rewrite (not_farthest _ (1, 2)%nat (1, 3)%nat I13)
    by (unfold pair_separation; cbn [corner nth fst snd]; lra).
  rewrite farthest; [reflexivity|].
  intros q [<- | [<- | [<- | [<- | [<- | [<- | []]]]]]];
    unfold pair_separation; cbn [corner nth fst snd]; lra.
Qed.

Lemma kite_spec_halves :
  half_test K1 K0 K2 T = true /\ half_test K3 K0 K2 T = true.
Proof.
  pose proof sqrt3_bounds as Q. pose proof PI_RGT_0 as Pi. split.
  - apply half_test_raw.
    assert (P0 : 3 * (PI / 2) < position_angle K1 K0 < 2 * PI).
    { kite_pa (mkSky (PI / 2) 0) (mkSky (PI / 6) (PI / 6)).
      apply angle_nw; nra. }
    assert (P2 : PI < position_angle K1 K2 < 3 * (PI / 2)).
    { kite_pa (mkSky (PI / 2) 0) (mkSky (PI / 6) (- (PI / 6))).
      apply angle_sw; nra. }
    assert (PT : position_angle K1 T = 3 * (PI / 2)).
    { kite_pa (mkSky (PI / 2) 0) (mkSky (PI / 3) 0).
      replace (0 * 1 - 1 * 0 * (sqrt 3 / 2)) with 0 by ring.
      apply angle_west. nra. }
    rewrite PT, Rmin_right, Rmax_left by lra. lra.
  - apply half_test_raw.
    assert (P0 : 0 < position_angle K3 K0 < PI / 2).
    { kite_pa (mkSky 0 0) (mkSky (PI / 6) (PI / 6)).
      apply angle_ne; nra. }
    assert (P2 : PI / 2 < position_angle K3 K2 < PI).
    { kite_pa (mkSky 0 0) (mkSky (PI / 6) (- (PI / 6))).
      apply angle_se; nra. }
    assert (PT : position_angle K3 T = PI / 2).
    { kite_pa (mkSky 0 0) (mkSky (PI / 3) 0).
      replace (0 * 1 - 1 * 0 * (1 / 2)) with 0 by ring.
      apply angle_east. nra. }
    rewrite PT, Rmin_left, Rmax_right by lra. lra.
Qed.

Lemma kite_spec : interior_test_spec T [K0; K1; K2; K3] = Some true.
Proof.
  unfold interior_test_spec. rewrite kite_farthest_pair.
  cbn [off_diagonal filter fst snd Nat.eqb negb andb corner nth].
  destruct kite_spec_halves as [-> ->]. reflexivity.
Qed.

End Kite.

(** On the kite the corner farthest from the first corner is its
    neighbour, not the far end of a diagonal: [interior_test] rejects a
    point of the long diagonal that the test from both ends of the farthest
    pair accepts. *)
Lemma kite_diagonal_differs :
  interior_test kite_point kite = Some false /\
  interior_test_spec kite_point kite = Some true.
Proof. split; [exact kite_code | exact kite_spec]. Qed.

(** ** Cartesian coordinates *)

Lemma norm_unit (v : vec) : dot v v = 1 -> norm v = 1.
Proof. intros H. unfold norm. rewrite H. apply sqrt_1. Qed.

(** X12. [sc2xyz] and [rd2xyz] return unit vectors, and they agree:
    [sc2xyz] of the coordinate object made from a longitude and a latitude
    is [rd2xyz] of the two angles, the longitude wrapped or not. *)
Theorem xyz_unit (lon lat : R) :
  norm (rd2xyz lon lat) = 1 /\
  norm (sc2xyz (SkyCoord_of lon lat)) = 1 /\
  sc2xyz (mkSky lon lat) = rd2xyz lon lat /\
  sc2xyz (SkyCoord_of lon lat) = rd2xyz lon lat.
Proof.
  assert (E : sc2xyz (mkSky lon lat) = rd2xyz lon lat) by reflexivity.
  split; [|split; [|split]].
  - rewrite <- E. apply norm_unit, sc2xyz_unit.
  - apply norm_unit, sc2xyz_unit.
  - exact E.
  - unfold SkyCoord_of, sc2xyz, rd2xyz. cbn [ra dec].
    rewrite cos_wrap_at, sin_wrap_at. reflexivity.
Qed.

Lemma wrap_at_id (a : R) : 0 <= a < 2 * PI -> wrap_at a (2 * PI) = a.
Proof.
  intros H. rewrite (wrap_at_unique a (2 * PI) 0); lra.
Qed.

(** X13. Off the poles and with the right ascension in [[0, 2 PI)], the
    conversion of [sc2xyz] is undone by [cartesian_to_spherical], the
    conversion [spherical_interpolation] ends with: it returns the distance
    1, the declination and the right ascension. *)
Theorem sc2xyz_inverse (c : SkyCoord) :
  0 <= ra c < 2 * PI -> - (PI / 2) < dec c < PI / 2 ->
  cartesian_to_spherical (sc2xyz c) = (1, dec c, ra c).
Proof.
  intros Hr Hd.
  pose proof (spherical_roundtrip (sc2xyz c) (sc2xyz_unit c)) as RT.
  pose proof (sc2xyz_unit c) as U.
  unfold cartesian_to_spherical in *.
  set (v := sc2xyz c) in *.
  set (s := hypot (vx v) (vy v)) in *.
  set (lat := atan2 (vz v) s) in *.
  set (lon := wrap_at (atan2 (vy v) (vx v)) (2 * PI)) in *.
  assert (Hlon : 0 <= lon < 2 * PI).
  { pose proof (wrap_at_range (atan2 (vy v) (vx v)) (2 * PI)). fold lon in H.
    lra. }
  assert (E : SkyCoord_of lon lat = c).
  { apply skycoord_unique; try assumption.
    - unfold SkyCoord_of. cbn [ra]. rewrite (wrap_at_id lon Hlon). exact Hlon.
    - unfold SkyCoord_of. cbn [dec]. apply atan2_right_half.
      apply hypot_nonneg. }
  unfold SkyCoord_of in E. rewrite (wrap_at_id lon Hlon) in E.
  assert (D : hypot s (vz v) = 1).
  { pose proof (hypot_sq (vx v) (vy v)) as S2. fold s in S2.
    unfold hypot at 1. rewrite S2.
    replace (vx v * vx v + vy v * vy v + vz v * vz v) with (dot v v)
      by (unfold dot; ring).
    rewrite U. apply sqrt_1. }
  rewrite D. rewrite <- E. reflexivity.
Qed.

(** A point on the equator. *)
Lemma sc2xyz_inverse_witness :
  cartesian_to_spherical (sc2xyz (mkSky (PI / 2) 0)) = (1, 0, PI / 2).
Proof.
  pose proof PI_RGT_0 as P.
  apply (sc2xyz_inverse (mkSky (PI / 2) 0)); cbn [ra dec]; lra.
Defined.

(** ** Rotations *)

(** X14. Rotations about one unit axis compose by adding their angles. *)
Theorem vector_rotate_compose (r n : vec) (a b : R) :
  norm n = 1 ->
  vector_rotate (vector_rotate r n a) n b = vector_rotate r n (a + b).
Proof.
  intros Hn. apply norm_one_dot in Hn. unfold vector_rotate.
  replace (- (a + b)) with (- a + - b) by ring.
  rewrite cos_plus, sin_plus.
  pose proof (sin2_cos2' (- a)) as Ta. pose proof (sin2_cos2' (- b)) as Tb.
  set (ca := cos (- a)) in *. set (sa := sin (- a)) in *.
  set (cb := cos (- b)) in *. set (sb := sin (- b)) in *.
  destruct r as [[rx ry] rz], n as [[nx ny] nz].
  unfold vadd, vscale, cross, dot, vx, vy, vz in *; simpl in *.
  apply vec_eq; unfold vx, vy, vz; simpl; nsatz.
Qed.

(** Two quarter turns about the z axis. *)
Lemma vector_rotate_compose_witness :
  norm (0, 0, 1) = 1 /\
  vector_rotate (vector_rotate (1, 0, 0) (0, 0, 1) (PI / 2)) (0, 0, 1) (PI / 2)
    = vector_rotate (1, 0, 0) (0, 0, 1) (PI / 2 + PI / 2).
Proof.
  assert (H : norm (0, 0, 1) = 1).
  { apply norm_unit. unfold dot, vx, vy, vz. simpl. ring. }
  split; [exact H | exact (vector_rotate_compose _ _ _ _ H)].
Defined.

(** X15. A rotation about a unit axis leaves the axis where it is and
    keeps scalar products and vector products: it is a proper rotation,
    no reflection. *)
Theorem vector_rotate_proper (r s n : vec) (th : R) :
  norm n = 1 ->
  vector_rotate n n th = n /\
  dot (vector_rotate r n th) (vector_rotate s n th) = dot r s /\
  cross (vector_rotate r n th) (vector_rotate s n th)
    = vector_rotate (cross r s) n th.
Proof.
  intros Hn. apply norm_one_dot in Hn. unfold vector_rotate.
  pose proof (sin2_cos2' (- th)) as T.
  set (c := cos (- th)) in *. set (k := sin (- th)) in *.
  destruct r as [[rx ry] rz], s as [[sx sy] sz], n as [[nx ny] nz].
  unfold vadd, vscale, cross, dot, vx, vy, vz in *; simpl in *.
  split; [|split].
  - apply vec_eq; unfold vx, vy, vz; simpl; nsatz.
  - nsatz.
  - apply vec_eq; unfold vx, vy, vz; simpl; nsatz.
Qed.

(** The x and y axes, turned about the z axis. *)
Lemma vector_rotate_proper_witness :
  norm (0, 0, 1) = 1 /\
  (vector_rotate (0, 0, 1) (0, 0, 1) (PI / 2) = (0, 0, 1) /\
   dot (vector_rotate (1, 0, 0) (0, 0, 1) (PI / 2))
       (vector_rotate (0, 1, 0) (0, 0, 1) (PI / 2))
     = dot (1, 0, 0) (0, 1, 0) /\
   cross (vector_rotate (1, 0, 0) (0, 0, 1) (PI / 2))
         (vector_rotate (0, 1, 0) (0, 0, 1) (PI / 2))
     = vector_rotate (cross (1, 0, 0) (0, 1, 0)) (0, 0, 1) (PI / 2)).
Proof.
  assert (H : norm (0, 0, 1) = 1).
  { apply norm_unit. unfold dot, vx, vy, vz. simpl. ring. }
  split; [exact H | exact (vector_rotate_proper _ _ _ _ H)].
Defined.

(** X16. The rotation is counterclockwise about the axis: a vector [r]
    at right angles to the unit axis [n] turns, in the plane they span,
    from [r] towards [n x r]. *)
Theorem vector_rotate_counterclockwise (r n : vec) (th : R) :
  norm n = 1 -> dot n r = 0 ->
  vector_rotate r n th
    = vadd (vscale r (cos th)) (vscale (cross n r) (sin th)).
Proof.
  intros Hn Hr. apply norm_one_dot in Hn. unfold vector_rotate.
  rewrite cos_neg, sin_neg.
  set (c := cos th) in *. set (k := sin th) in *.
  destruct r as [[rx ry] rz], n as [[nx ny] nz].
  unfold vadd, vscale, cross, dot, vx, vy, vz in *; simpl in *.
  apply vec_eq; unfold vx, vy, vz; simpl; nsatz.
Qed.

(** The call of [test_vector_rotate]. *)
Lemma vector_rotate_counterclockwise_witness :
  norm (0, 0, 1) = 1 /\ dot (0, 0, 1) (1, 0, 0) = 0 /\
  vector_rotate (1, 0, 0) (0, 0, 1) (PI / 2)
    = vadd (vscale (1, 0, 0) (cos (PI / 2)))
           (vscale (cross (0, 0, 1) (1, 0, 0)) (sin (PI / 2))).
Proof.
  assert (H : norm (0, 0, 1) = 1).
  { apply norm_unit. unfold dot, vx, vy, vz. simpl. ring. }
  assert (K : dot (0, 0, 1) (1, 0, 0) = 0).
  { unfold dot, vx, vy, vz. simpl. ring. }
  split; [exact H|]. split; [exact K|].
  exact (vector_rotate_counterclockwise _ _ _ H K).
Defined.

(** ** Interpolation along the great circle *)

(** The rotation of [spherical_interpolation], written with both anchors. *)
Lemma rotate_slerp (a b : vec) (w th : R) :
  dot a a = 1 -> dot b b = 1 -> norm (cross a b) <> 0 ->
  cos w = dot a b -> sin w = norm (cross a b) ->
  vscale (vector_rotate a (vscale (cross a b) (/ norm (cross a b))) th) (sin w)
    = vadd (vscale a (sin (w - th))) (vscale b (sin th)).
Proof.
  intros Ha Hb HN Hc Hs. unfold vector_rotate.
  rewrite sin_minus, cos_neg, sin_neg, Hc, Hs.
  pose proof (norm_sq (cross a b)) as N2.
  pose proof (Rinv_r _ HN) as NI.
  set (N := norm (cross a b)) in *. set (iN := / N) in *.
  set (c := cos th) in *. set (k := sin th) in *.
  destruct a as [[a1 a2] a3], b as [[b1 b2] b3].
  unfold vadd, vscale, cross, dot, vx, vy, vz in *; simpl in *.
  apply vec_eq; unfold vx, vy, vz; simpl; nsatz.
Qed.

Lemma vscale_cancel (u v : vec) (k : R) :
  k <> 0 -> vscale u k = vscale v k -> u = v.
Proof.
  intros K E. destruct u as [[u1 u2] u3], v as [[v1 v2] v3].
  unfold vscale, vx, vy, vz in E. simpl in E. inversion E.
  apply vec_eq; unfold vx, vy, vz; simpl;
    apply Rmult_eq_reg_r with k; assumption.
Qed.

Lemma cross_swap (a b : vec) : cross b a = vneg (cross a b).
Proof.
  destruct a as [[a1 a2] a3], b as [[b1 b2] b3].
  unfold vneg, vscale, cross, vx, vy, vz; simpl.
  apply vec_eq; unfold vx, vy, vz; simpl; ring.
Qed.

Lemma norm_cross_swap (a b : vec) : norm (cross b a) = norm (cross a b).
Proof.
  rewrite cross_swap. unfold norm. f_equal.
  destruct (cross a b) as [[x y] z]. unfold vneg, vscale, dot, vx, vy, vz.
  simpl. ring.
Qed.

Lemma dot_swap (a b : vec) : dot b a = dot a b.
Proof. unfold dot. ring. Qed.

Lemma separation_swap (c0 c1 : SkyCoord) : separation c1 c0 = separation c0 c1.
Proof.
  rewrite !separation_atan2, norm_cross_swap, dot_swap. reflexivity.
Qed.

(** What [spherical_interpolation] computes when it divides by no zero. *)
Lemma interpolation_value (c0 c1 : SkyCoord) (t0 t1 t2 : R) :
  t1 - t0 <> 0 ->
  norm (cross (sc2xyz c0) (sc2xyz c1)) <> 0 ->
  spherical_interpolation c0 c1 t0 t1 t2
    = let '(d, dec, ra) :=
        cartesian_to_spherical
          (vector_rotate (sc2xyz c0)
             (vscale (cross (sc2xyz c0) (sc2xyz c1))
                     (/ norm (cross (sc2xyz c0) (sc2xyz c1))))
             (separation c0 c1 * ((t2 - t0) / (t1 - t0)))) in
      Some (SkyCoord_of ra dec).
Proof.
  intros Ht HN. unfold spherical_interpolation.
  destruct (Req_dec_T (t1 - t0) 0) as [Z|_]; [contradiction|].
  cbv zeta. rewrite (normalize_defined _ HN). reflexivity.
Qed.

Lemma interpolation_no_step (c0 c1 : SkyCoord) (t0 t1 t2 : R) :
  t1 - t0 = 0 -> spherical_interpolation c0 c1 t0 t1 t2 = None.
Proof.
  intros Z. unfold spherical_interpolation.
  destruct (Req_dec_T (t1 - t0) 0) as [_|N]; [reflexivity | contradiction].
Qed.



Lemma dot_vscale_l (u v : vec) (k : R) : dot (vscale u k) v = k * dot u v.
Proof. unfold dot, vscale, vx, vy, vz. simpl. ring. Qed.

(** The result with its anchors, [sin w] being positive. *)
Lemma interpolation_slerp_vec (c0 c1 c : SkyCoord) (t0 t1 t2 : R) :
  spherical_interpolation c0 c1 t0 t1 t2 = Some c ->
  0 < sin (separation c0 c1) /\
  vscale (sc2xyz c) (sin (separation c0 c1))
    = vadd (vscale (sc2xyz c0)
              (sin (separation c0 c1
                    - separation c0 c1 * ((t2 - t0) / (t1 - t0)))))
           (vscale (sc2xyz c1)
              (sin (separation c0 c1 * ((t2 - t0) / (t1 - t0))))).
Proof.
  intros E. destruct (interpolation_some _ _ _ _ _ _ E) as [Ht HN].
  destruct (interpolation_xyz c0 c1 t0 t1 t2 Ht HN) as (c' & E' & X).
  assert (c' = c) by congruence. subst c'.
  destruct (cos_sin_separation c0 c1) as [Cw Sw].
  split.
  - rewrite Sw. pose proof (norm_nonneg (cross (sc2xyz c0) (sc2xyz c1))). lra.
  - rewrite X. apply rotate_slerp; try assumption; apply sc2xyz_unit.
Qed.

(** X18. The interpolated point is the spherical linear interpolation of
    the anchors: with [w] their separation and [f] the fraction
    [(t2 - t0) / (t1 - t0)] of the time step,
    [sin w * c = sin (w - f w) * c0 + sin (f w) * c1] as vectors, for times
    inside and outside the step alike; so the point lies on the great
    circle through the anchors. *)
Theorem interpolation_slerp (c0 c1 c : SkyCoord) (t0 t1 t2 : R) :
  spherical_interpolation c0 c1 t0 t1 t2 = Some c ->
  0 < sin (separation c0 c1) /\
  vscale (sc2xyz c) (sin (separation c0 c1))
    = vadd (vscale (sc2xyz c0)
              (sin (separation c0 c1
                    - separation c0 c1 * ((t2 - t0) / (t1 - t0)))))
           (vscale (sc2xyz c1)
              (sin (separation c0 c1 * ((t2 - t0) / (t1 - t0))))) /\
  dot (sc2xyz c) (cross (sc2xyz c0) (sc2xyz c1)) = 0.
Proof.
  intros E. destruct (interpolation_slerp_vec _ _ _ _ _ _ E) as [S V].
  split; [exact S|]. split; [exact V|].
  apply Rmult_eq_reg_l with (sin (separation c0 c1)); [|lra].
  rewrite <- dot_vscale_l, V, Rmult_0_r.
  destruct (sc2xyz c0) as [[a1 a2] a3], (sc2xyz c1) as [[b1 b2] b3].
  unfold vadd, vscale, cross, dot, vx, vy, vz. simpl. ring.
Qed.

(** X19. Interpolating from the second anchor back to the first gives the
    same result as interpolating forward, and fails in the same cases. *)
Theorem interpolation_reversible (c0 c1 : SkyCoord) (t0 t1 t2 : R) :
  spherical_interpolation c1 c0 t1 t0 t2
    = spherical_interpolation c0 c1 t0 t1 t2.
Proof.
  destruct (Req_dec_T (t1 - t0) 0) as [Z|NZ].
  { rewrite !interpolation_no_step by lra. reflexivity. }
  destruct (Req_dec_T (norm (cross (sc2xyz c0) (sc2xyz c1))) 0) as [Z|HN].
  { rewrite !interpolation_parallel; [reflexivity | exact Z |].
    rewrite norm_cross_swap. exact Z. }
  assert (NZ' : t0 - t1 <> 0) by lra.
  assert (HN' : norm (cross (sc2xyz c1) (sc2xyz c0)) <> 0)
    by (rewrite norm_cross_swap; exact HN).
  rewrite (interpolation_value c0 c1 t0 t1 t2 NZ HN).
  rewrite (interpolation_value c1 c0 t1 t0 t2 NZ' HN').
  destruct (cos_sin_separation c0 c1) as [Cw Sw].
  destruct (cos_sin_separation c1 c0) as [Cw' Sw'].
  pose proof (norm_nonneg (cross (sc2xyz c0) (sc2xyz c1))) as N0.
  assert (V : vector_rotate (sc2xyz c1)
                (vscale (cross (sc2xyz c1) (sc2xyz c0))
                        (/ norm (cross (sc2xyz c1) (sc2xyz c0))))
                (separation c1 c0 * ((t2 - t1) / (t0 - t1)))
              = vector_rotate (sc2xyz c0)
                  (vscale (cross (sc2xyz c0) (sc2xyz c1))
                          (/ norm (cross (sc2xyz c0) (sc2xyz c1))))
                  (separation c0 c1 * ((t2 - t0) / (t1 - t0)))).
  { apply (vscale_cancel _ _ (sin (separation c0 c1))); [lra|].
    rewrite (rotate_slerp (sc2xyz c0) (sc2xyz c1) _ _
               (sc2xyz_unit c0) (sc2xyz_unit c1) HN Cw Sw).
    rewrite <- (separation_swap c0 c1) at 1.
    rewrite (rotate_slerp (sc2xyz c1) (sc2xyz c0) _ _
               (sc2xyz_unit c1) (sc2xyz_unit c0) HN' Cw' Sw').
    rewrite (separation_swap c0 c1).
    set (w := separation c0 c1).
    replace (w - w * ((t2 - t1) / (t0 - t1)))
      with (w * ((t2 - t0) / (t1 - t0))) by (field; lra).
    replace (w * ((t2 - t1) / (t0 - t1)))
      with (w - w * ((t2 - t0) / (t1 - t0))) by (field; lra).
    destruct (sc2xyz c0) as [[a1 a2] a3], (sc2xyz c1) as [[b1 b2] b3].
    unfold vadd, vscale, vx, vy, vz; simpl.
    apply vec_eq; unfold vx, vy, vz; simpl; ring. }
  rewrite V. reflexivity.
Qed.

(** X20. For a time within the step, the interpolated point lies on the
    arc between the anchors and divides it as the time divides the step:
    its separation from the first anchor is the fraction [f] of the anchors'
    separation and its separation from the second the rest. *)
Theorem interpolation_uniform (c0 c1 c : SkyCoord) (t0 t1 t2 : R) :
  spherical_interpolation c0 c1 t0 t1 t2 = Some c ->
  0 <= (t2 - t0) / (t1 - t0) <= 1 ->
  separation c0 c = separation c0 c1 * ((t2 - t0) / (t1 - t0)) /\
  separation c c1 = separation c0 c1 * (1 - (t2 - t0) / (t1 - t0)).
Proof.
  intros E F.
  destruct (interpolation_slerp_vec _ _ _ _ _ _ E) as [S V].
  destruct (cos_sin_separation c0 c1) as [Cw Sw].
  pose proof (separation_range c0 c1) as Rw.
  pose proof (sc2xyz_unit c0) as U0. pose proof (sc2xyz_unit c1) as U1.
  pose proof (sin2_cos2' (separation c0 c1)) as T.
  set (w := separation c0 c1) in *. set (f := (t2 - t0) / (t1 - t0)) in *.
  assert (Rf : 0 <= w * f <= PI) by nra.
  assert (Rg : 0 <= w * (1 - f) <= PI) by nra.
  split.
  - apply cos_inj; [apply separation_range | exact Rf |].
    rewrite (proj1 (cos_sin_separation c0 c)).
    apply Rmult_eq_reg_l with (sin w); [|lra].
    rewrite (dot_swap (sc2xyz c) (sc2xyz c0)).
    rewrite <- dot_vscale_l, V.
    rewrite sin_minus.
    set (cf := cos (w * f)). set (sf := sin (w * f)).
    destruct (sc2xyz c0) as [[a1 a2] a3], (sc2xyz c1) as [[b1 b2] b3].
    unfold vadd, vscale, dot, vx, vy, vz in *; simpl in *. nsatz.
  - apply cos_inj; [apply separation_range | exact Rg |].
    rewrite (proj1 (cos_sin_separation c c1)).
    apply Rmult_eq_reg_l with (sin w); [|lra].
    rewrite <- dot_vscale_l, V.
    replace (w * (1 - f)) with (w - w * f) by ring.
    rewrite cos_minus, sin_minus.
    set (cf := cos (w * f)). set (sf := sin (w * f)).
    destruct (sc2xyz c0) as [[a1 a2] a3], (sc2xyz c1) as [[b1 b2] b3].
    unfold vadd, vscale, dot, vx, vy, vz in *; simpl in *. nsatz.
Qed.

(** Half way along a quarter of the equator. *)
Lemma interpolation_slerp_witness :
  exists c,
    spherical_interpolation (mkSky 0 0) (mkSky (PI / 2) 0) 0 1 (1 / 2)
      = Some c /\
    (0 < sin (separation (mkSky 0 0) (mkSky (PI / 2) 0)) /\
     vscale (sc2xyz c) (sin (separation (mkSky 0 0) (mkSky (PI / 2) 0)))
       = vadd (vscale (sc2xyz (mkSky 0 0))
                 (sin (separation (mkSky 0 0) (mkSky (PI / 2) 0)
                       - separation (mkSky 0 0) (mkSky (PI / 2) 0)
                         * ((1 / 2 - 0) / (1 - 0)))))
              (vscale (sc2xyz (mkSky (PI / 2) 0))
                 (sin (separation (mkSky 0 0) (mkSky (PI / 2) 0)
                       * ((1 / 2 - 0) / (1 - 0))))) /\
     dot (sc2xyz c) (cross (sc2xyz (mkSky 0 0)) (sc2xyz (mkSky (PI / 2) 0)))
       = 0).
Proof.
  pose proof PI_RGT_0 as P.
  destruct (equator_interpolation 0 (PI / 2) 0 1 (1 / 2)) as (c & E & _);
    [lra | lra |].
  exists c. split; [exact E | exact (interpolation_slerp _ _ _ _ _ _ E)].
Defined.

(** The same point: an eighth of a turn from either anchor. *)
Lemma interpolation_uniform_witness :
  exists c,
    spherical_interpolation (mkSky 0 0) (mkSky (PI / 2) 0) 0 1 (1 / 2)
      = Some c /\
    0 <= (1 / 2 - 0) / (1 - 0) <= 1 /\
    (separation (mkSky 0 0) c
       = separation (mkSky 0 0) (mkSky (PI / 2) 0) * ((1 / 2 - 0) / (1 - 0)) /\
     separation c (mkSky (PI / 2) 0)
       = separation (mkSky 0 0) (mkSky (PI / 2) 0)
         * (1 - (1 / 2 - 0) / (1 - 0))).
Proof.
  pose proof PI_RGT_0 as P.
  destruct (equator_interpolation 0 (PI / 2) 0 1 (1 / 2)) as (c & E & _);
    [lra | lra |].
  assert (F : 0 <= (1 / 2 - 0) / (1 - 0) <= 1).
  { replace ((1 / 2 - 0) / (1 - 0)) with (1 / 2) by field. lra. }
  exists c. split; [exact E|]. split; [exact F|].
  exact (interpolation_uniform _ _ _ _ _ _ E F).
Defined.

(** ** The box: bounds and definedness *)






(** ** interior_test *)

(** X23. Wrapping at the smaller corner angle changes no verdict of a half
    test: the test accepts exactly the points whose position angle, as
    computed in [[0, 2 PI)], lies between the two corner angles as
    computed, bounds included; and the two corners can be given in either
    order. *)
Theorem half_test_no_wrap (c ci cj point : SkyCoord) :
  (half_test c ci cj point = true <->
   Rmin (position_angle c ci) (position_angle c cj)
     <= position_angle c point
     <= Rmax (position_angle c ci) (position_angle c cj)) /\
  half_test c cj ci point = half_test c ci cj point.
Proof.
  split; [apply half_test_raw|].
  pose proof (half_test_raw c ci cj point) as A.
  pose proof (half_test_raw c cj ci point) as B.
  rewrite Rmin_comm, Rmax_comm in B.
  destruct (half_test c ci cj point), (half_test c cj ci point);
    try reflexivity.
  - apply B. apply A. reflexivity.
  - symmetry. apply A. apply B. reflexivity.
Qed.


(** X25. The comparisons are inclusive: the two corners nearest to
    [corners[0]], which the code takes for its neighbours, always test
    as interior. *)
Theorem interior_test_near_corners (c0 c1 c2 c3 : SkyCoord) :
  exists i j k : nat,
    Permutation [i; j; k] [1; 2; 3]%nat /\
    separation c0 (corner [c0; c1; c2; c3] i)
      <= separation c0 (corner [c0; c1; c2; c3] j)
      <= separation c0 (corner [c0; c1; c2; c3] k) /\
    interior_test (corner [c0; c1; c2; c3] i) [c0; c1; c2; c3] = Some true /\
    interior_test (corner [c0; c1; c2; c3] j) [c0; c1; c2; c3] = Some true.
Proof.
  destruct (argsort3 (separation c0 c1) (separation c0 c2) (separation c0 c3))
    as (i & j & k & E & P & O).
  exists (S i), (S j), (S k). split; [|split; [|split]].
  - exact (Permutation_map S P).
  - assert (M : forall n, In n [0; 1; 2]%nat ->
              separation c0 (corner [c0; c1; c2; c3] (S n))
              = nth n [separation c0 c1; separation c0 c2; separation c0 c3] 0).
    { intros n [<- | [<- | [<- | []]]]; reflexivity. }
    rewrite !M; [exact O | | |];
      (eapply Permutation_in; [exact P|]); simpl; tauto.
  - rewrite (interior_test_eval _ _ _ _ _ _ _ _ E). f_equal.
    apply andb_true_iff. split; apply half_test_raw;
      split; (apply Rmin_l || apply Rmax_l).
  - rewrite (interior_test_eval _ _ _ _ _ _ _ _ E). f_equal.
    apply andb_true_iff. split; apply half_test_raw;
      split; (apply Rmin_r || apply Rmax_r).
Qed.

Lemma perm3 {A} (a b c : A) (l : list A) :
  Permutation [a; b; c] l ->
  l = [a; b; c] \/ l = [a; c; b] \/ l = [b; a; c] \/
  l = [b; c; a] \/ l = [c; a; b] \/ l = [c; b; a].
Proof.
  intros P. pose proof (Permutation_length P) as L.
  destruct l as [|x [|y [|z [|? ?]]]]; try discriminate L.
  assert (Ia : In a [x; y; z])
    by (eapply Permutation_in; [exact P | left; reflexivity]).
  assert (two : forall p q r s : A, Permutation [p; q] [r; s] ->
                  (p = r /\ q = s) \/ (p = s /\ q = r)).
  { intros p q r s H. apply Permutation_length_2_inv in H.
    destruct H as [H | H]; inversion H; subst; tauto. }
  destruct Ia as [<- | [<- | [<- | []]]].
  - apply Permutation_cons_inv in P.
    destruct (two _ _ _ _ P) as [[-> ->] | [-> ->]]; tauto.
  - assert (Q : Permutation [b; c] [x; z]).
    { apply Permutation_cons_inv with y.
      eapply Permutation_trans; [exact P | apply perm_swap]. }
    destruct (two _ _ _ _ Q) as [[-> ->] | [-> ->]]; tauto.
  - assert (Q : Permutation [b; c] [x; y]).
    { apply Permutation_cons_inv with z.
      eapply Permutation_trans; [exact P|].
      apply Permutation_sym. apply (Permutation_cons_app [x; y] []).
      rewrite app_nil_r. apply Permutation_refl. }
    destruct (two _ _ _ _ Q) as [[-> ->] | [-> ->]]; tauto.
Qed.

Ltac compare_step :=
  match goal with
  | |- context [Rltb ?x ?y] =>
      let E := fresh "E" in
      destruct (Rltb x y) eqn:E;
      [apply Rltb_iff in E | apply Rltb_false_iff in E];
      try (exfalso; lra)
  end.

(** X26. When the three other corners lie at three different separations
    from [corners[0]], the order in which they are listed does not matter:
    [interior_test] gives the same verdict for every listing that keeps
    [corners[0]] first. *)
Theorem interior_test_tail_order (point c0 c1 c2 c3 : SkyCoord)
    (l : list SkyCoord) :
  separation c0 c1 <> separation c0 c2 ->
  separation c0 c1 <> separation c0 c3 ->
  separation c0 c2 <> separation c0 c3 ->
  Permutation [c1; c2; c3] l ->
  interior_test point (c0 :: l) = interior_test point [c0; c1; c2; c3].
Proof.
  intros N12 N13 N23 P.
  apply Rdichotomy in N12, N13, N23.
  unfold interior_test, argsort.
  destruct (perm3 _ _ _ _ P) as [-> | [-> | [-> | [-> | [-> | ->]]]]];
    cbn [map List.length seq combine fold_left insert_by_value fst snd];
    set (a := separation c0 c1) in *; set (b := separation c0 c2) in *;
    set (c := separation c0 c3) in *;
    destruct N12, N13, N23; try (exfalso; lra);
    repeat (compare_step;
            cbn [map List.length seq combine fold_left insert_by_value
                 fst snd]);
    reflexivity.
Qed.

Lemma footprint_separations (h d : R) :
  0 < d -> d < h -> h < PI / 2 ->
  separation (mkSky 0 0) (mkSky 0 d) < separation (mkSky 0 0) (mkSky h 0) /\
  separation (mkSky 0 0) (mkSky h 0) < separation (mkSky 0 0) (mkSky h d).
Proof.
  intros H1 H2 H3.
  destruct (footprint_trig h d H1 H2 H3) as (Sd & Cd & Sh & Ch & Sdh & Chd & _).
  split.
  - rewrite sep_A_D, sep_A_B. apply atan2_hypot_lt; try assumption.
    assert (0 < sin d * cos h) by nra.
    assert (sin d * cos h < sin h * cos d) by nra.
    assert ((sin d * cos h) * (sin d * cos h)
            < (sin h * cos d) * (sin h * cos d)) by nra.
    lra.
  - rewrite sep_A_B, sep_A_C. apply atan2_hypot_lt; [assumption | nra |].
    assert (0 < sin d * cos h) by nra.
    assert (0 < (sin d * cos h) * (sin d * cos h)) by nra.
    lra.
Qed.

(** The footprint of [test_interior_test] in the test's third corner
    order, which differs from the first in the order of the last two
    corners: the verdict on the interior point is the same. *)
Lemma interior_test_tail_order_witness :
  separation (mkSky 0 0) (mkSky hourangle 0)
    <> separation (mkSky 0 0) (mkSky hourangle degree) /\
  separation (mkSky 0 0) (mkSky hourangle 0)
    <> separation (mkSky 0 0) (mkSky 0 degree) /\
  separation (mkSky 0 0) (mkSky hourangle degree)
    <> separation (mkSky 0 0) (mkSky 0 degree) /\
  Permutation [mkSky hourangle 0; mkSky hourangle degree; mkSky 0 degree]
              [mkSky hourangle 0; mkSky 0 degree; mkSky hourangle degree] /\
  interior_test (centre hourangle degree) (footprint_crossed hourangle degree)
    = interior_test (centre hourangle degree) (footprint hourangle degree).
Proof.
  pose proof PI_RGT_0 as P.
  destruct (footprint_separations hourangle degree) as [S1 S2];
    try (unfold hourangle, degree; lra).
  assert (N1 : separation (mkSky 0 0) (mkSky hourangle 0)
               <> separation (mkSky 0 0) (mkSky hourangle degree)) by lra.
  assert (N2 : separation (mkSky 0 0) (mkSky hourangle 0)
               <> separation (mkSky 0 0) (mkSky 0 degree)) by lra.
  assert (N3 : separation (mkSky 0 0) (mkSky hourangle degree)
               <> separation (mkSky 0 0) (mkSky 0 degree)) by lra.
  assert (Q : Permutation
                [mkSky hourangle 0; mkSky hourangle degree; mkSky 0 degree]
                [mkSky hourangle 0; mkSky 0 degree; mkSky hourangle degree])
    by (apply perm_skip; apply perm_swap).
  split; [exact N1|]. split; [exact N2|]. split; [exact N3|].
  split; [exact Q|].
  exact (interior_test_tail_order (centre hourangle degree) _ _ _ _ _
           N1 N2 N3 Q).
Defined.

(** X27. A coordinate returned by [spherical_interpolation] is
    normalised: its right ascension lies in [[0, 2 PI)] and its declination
    in [[-PI/2, PI/2]], whatever the anchors' own angles. *)
Theorem interpolation_in_range (c0 c1 c : SkyCoord) (t0 t1 t2 : R) :
  spherical_interpolation c0 c1 t0 t1 t2 = Some c ->
  0 <= ra c < 2 * PI /\ - (PI / 2) <= dec c <= PI / 2.
Proof. apply interpolation_normalised. Qed.

(** Half way along a quarter of the equator. *)
Lemma interpolation_in_range_witness :
  exists c,
    spherical_interpolation (mkSky 0 0) (mkSky (PI / 2) 0) 0 1 (1 / 2)
      = Some c /\
    (0 <= ra c < 2 * PI /\ - (PI / 2) <= dec c <= PI / 2).
Proof.
  pose proof PI_RGT_0 as P.
  destruct (equator_interpolation 0 (PI / 2) 0 1 (1 / 2)) as (c & E & _);
    [lra | lra |].
  exists c. split; [exact E | exact (interpolation_in_range _ _ _ _ _ _ E)].
Defined.

(** ** Anchors as points of the sphere *)

(** X28. [spherical_interpolation] sees its anchors only as points of the
    sphere: anchors with the same Cartesian coordinates, such as right
    ascensions a whole turn apart, give the same result. *)
Theorem interpolation_by_points (c0 c1 c0' c1' : SkyCoord) (t0 t1 t2 : R) :
  sc2xyz c0 = sc2xyz c0' -> sc2xyz c1 = sc2xyz c1' ->
  spherical_interpolation c0 c1 t0 t1 t2
    = spherical_interpolation c0' c1' t0 t1 t2.
Proof.
  intros H0 H1. unfold spherical_interpolation.
  rewrite (separation_atan2 c0 c1), (separation_atan2 c0' c1'), H0, H1.
  reflexivity.
Qed.

(** Right ascension 0 and a whole turn. *)
Lemma interpolation_by_points_witness :
  sc2xyz (mkSky 0 0) = sc2xyz (mkSky (2 * PI) 0) /\
  sc2xyz (mkSky (PI / 2) 0) = sc2xyz (mkSky (PI / 2) 0) /\
  spherical_interpolation (mkSky 0 0) (mkSky (PI / 2) 0) 0 1 (1 / 2)
    = spherical_interpolation (mkSky (2 * PI) 0) (mkSky (PI / 2) 0) 0 1
        (1 / 2).
Proof.
  assert (H0 : sc2xyz (mkSky 0 0) = sc2xyz (mkSky (2 * PI) 0)).
  { unfold sc2xyz. cbn [ra dec]. rewrite cos_2PI, sin_2PI, cos_0, sin_0.
    reflexivity. }
  assert (H1 : sc2xyz (mkSky (PI / 2) 0) = sc2xyz (mkSky (PI / 2) 0))
    by reflexivity.
  split; [exact H0|]. split; [exact H1|].
  exact (interpolation_by_points _ _ _ _ 0 1 (1 / 2) H0 H1).
Defined.

(** ** A box without duration *)







End GeometryFacts.

(** ** logging.ProgressTriangle *)

Module ProgressFacts.

Import Progress.
Local Open Scope Z_scope.

Lemma update_step (n i : Z) (log : list string) :
  1 <= n -> 0 <= i ->
  update (mkTriangle n i log) 1
    = Some (mkTriangle n (i + 1)
              (log ++ map (fun j => repeat_char "."%char (Z.of_nat j))
                          (seq (S (due n i)) (due n (i + 1) - due n i)))) /\
  (due n i <= due n (i + 1))%nat.
Proof.
  intros Hn Hi. unfold update, log_dots, due. cbn [tri_n tri_i tri_log].
  destruct (Z.eqb_spec n 0) as [E|_]; [lia|].
  pose proof (Z.div_mod i n ltac:(lia)) as D.
  pose proof (Z.mod_pos_bound i n ltac:(lia)) as B.
  pose proof (Z.div_pos i n Hi ltac:(lia)) as Q0.
  destruct (Z.eq_dec (i mod n + 1) n) as [W|W].
  - assert (Q : (i + 1) / n = i / n + 1).
    { symmetry. apply (Z.div_unique (i + 1) n (i / n + 1) 0); lia. }
    assert (M : (i + 1) mod n = 0).
    { symmetry. apply (Z.mod_unique (i + 1) n (i / n + 1) 0); lia. }
    rewrite M, Q.
    destruct (Z.geb_spec (i mod n) 0) as [_|X]; [|lia].
    replace (Z.to_nat (i / n + 1) - Z.to_nat (i / n))%nat with 1%nat by lia.
    cbn [seq map]. split; [|lia].
    replace (Z.of_nat (S (Z.to_nat (i / n)))) with (i / n + 1) by lia.
    reflexivity.
  - assert (Q : (i + 1) / n = i / n).
    { symmetry. apply (Z.div_unique (i + 1) n (i / n) (i mod n + 1)); lia. }
    assert (M : (i + 1) mod n = i mod n + 1).
    { symmetry. apply (Z.mod_unique (i + 1) n (i / n) (i mod n + 1)); lia. }
    rewrite M, Q.
    destruct (Z.geb_spec (i mod n) (i mod n + 1)) as [X|_]; [lia|].
    rewrite Nat.sub_diag. cbn [seq map]. rewrite app_nil_r.
    split; [reflexivity | lia].
Qed.

Lemma due_mono (n i m : Z) :
  1 <= n -> 0 <= i -> 0 <= m -> (due n i <= due n (i + m))%nat.
Proof.
  intros Hn Hi Hm. unfold due. apply Z2Nat.inj_le.
  - apply Z.div_pos; lia.
  - apply Z.div_pos; lia.
  - apply Z.div_le_mono; lia.
Qed.

Lemma updates_from (m : nat) :
  forall (n i : Z) (log : list string),
    1 <= n -> 0 <= i ->
    updates m (mkTriangle n i log)
      = Some (mkTriangle n (i + Z.of_nat m)
                (log ++ map (fun j => repeat_char "."%char (Z.of_nat j))
                            (seq (S (due n i))
                                 (due n (i + Z.of_nat m) - due n i)))).
Proof.
  induction m as [|m IH]; intros n i log Hn Hi.
  - cbn [updates]. rewrite Z.add_0_r, Nat.sub_diag. cbn [seq map].
    rewrite app_nil_r. reflexivity.
  - cbn [updates]. destruct (update_step n i log Hn Hi) as [-> Hd].
    rewrite IH by lia.
    replace (i + 1 + Z.of_nat m) with (i + Z.of_nat (S m)) by lia.
    pose proof (due_mono n (i + 1) (Z.of_nat m) Hn ltac:(lia) ltac:(lia)) as Hm.
    replace (i + 1 + Z.of_nat m) with (i + Z.of_nat (S m)) in Hm by lia.
    rewrite <- app_assoc, <- map_app. do 3 f_equal.
    replace (due n (i + Z.of_nat (S m)) - due n i)%nat
      with ((due n (i + 1) - due n i)
            + (due n (i + Z.of_nat (S m)) - due n (i + 1)))%nat by lia.
    rewrite seq_app. f_equal. f_equal. f_equal. lia.
Qed.

(** X4. A progress triangle with [n >= 1] steps per dot, reset at any
    count: [m] calls of [update()] all succeed, leave the count at [m], and
    log one row of dots each time the count reaches a multiple of [n]: rows
    of 1, 2, ..., [m // n] dots, and nothing else. *)
Theorem triangle_rows (n i : Z) (m : nat) (log : list string) :
  1 <= n ->
  updates m (reset (mkTriangle n i log))
    = Some (mkTriangle n (Z.of_nat m)
              (log ++ rows_of_dots (Z.to_nat (Z.of_nat m / n)))).
Proof.
  intros Hn. unfold reset. cbn [tri_n tri_log].
  rewrite updates_from by lia. unfold rows_of_dots, due.
  rewrite Z.add_0_l, Z.div_0_l by lia. cbn [Z.to_nat].
  rewrite Nat.sub_0_r. reflexivity.
Qed.

(** Seven steps at three steps per dot: a row of one dot, a row of two. *)
Lemma triangle_rows_witness :
  1 <= 3 /\
  updates 7 (reset (mkTriangle 3 5 []))
    = Some (mkTriangle 3 7 ["."; ".."]%string).
Proof.
  assert (H : 1 <= 3) by lia.
  split; [exact H | exact (triangle_rows 3 5 7 [] H)].
Defined.

(** With no step per dot every [update] fails on its modulus. *)
Lemma triangle_zero_steps (i n : Z) (log : list string) :
  update (mkTriangle 0 i log) n = None.
Proof. reflexivity. Qed.

End ProgressFacts.
